(** * Funnel trend actors query: a shallow embedding of the generated SQL

    The query of [TestFunnelTrendsPersons] is a tower of sub-selects.  Each
    sub-select is embedded as a function from the rows it reads to the rows
    it returns; Nullable columns are [option], the 0/1 step flags are [Z],
    DateTime64(6) values are [Z] counting microseconds since the epoch. *)

From stdpp Require Import gmap strings list sorting.
From Stdlib Require Import ZArith Lia.

Local Open Scope Z_scope.

(** ** Scalar and aggregate functions of the SQL dialect *)

Module ClickHouse.

Definition ifNull {A} (x : option A) (alt : A) : A :=
  match x with Some v => v | None => alt end.

Definition isNotNull {A} (x : option A) : bool :=
  match x with Some _ => true | None => false end.

(* Comparisons propagate NULL. *)
Definition lessOrEquals (a b : option Z) : option bool :=
  match a, b with Some x, Some y => Some (x <=? y) | _, _ => None end.

Definition less (a b : option Z) : option bool :=
  match a, b with Some x, Some y => Some (x <? y) | _, _ => None end.

Definition greaterOrEquals (a b : option Z) : option bool :=
  match a, b with Some x, Some y => Some (y <=? x) | _, _ => None end.

Definition equals (a b : option Z) : option bool :=
  match a, b with Some x, Some y => Some (x =? y) | _, _ => None end.

Definition microseconds_per_second : Z := 1000000.
Definition microseconds_per_day : Z := 86400 * microseconds_per_second.

(* An interval of [n] days, in microseconds (UTC, no clock changes). *)
Definition toIntervalDay (n : Z) : Z := n * microseconds_per_day.

Definition plus (a : option Z) (interval : Z) : option Z :=
  match a with Some x => Some (x + interval) | None => None end.

(* dateDiff('second', a, b): the number of second boundaries between a and b. *)
Definition dateDiff_second (a b : option Z) : option Z :=
  match a, b with
  | Some x, Some y => Some (y / microseconds_per_second - x / microseconds_per_second)
  | _, _ => None
  end.

(* toStartOfDay of a DateTime64 returns a DateTime: the start of the day in
   whole seconds, kept in 32 bits without sign.  Compared with a
   DateTime64(6) it counts microseconds again. *)
Definition seconds_per_day : Z := 86400.

Definition toStartOfDay (t : Z) : Z :=
  (t / microseconds_per_day * seconds_per_day) mod 2 ^ 32 * microseconds_per_second.

(* min(...) skips NULLs and is NULL when every input is NULL. *)
Definition min2 (x acc : option Z) : option Z :=
  match x, acc with
  | Some a, Some b => Some (Z.min a b)
  | Some a, None => Some a
  | None, _ => acc
  end.

Definition min_agg (col : list (option Z)) : option Z := foldr min2 None col.

End ClickHouse.

Import ClickHouse.

(** ** Rows *)

(** A row of [events AS e INNER JOIN ... AS e__pdi] for the team: the event
    store hands over the timestamp, the person the event belongs to and the
    event name. *)
Record Event := mkEvent {
  e_timestamp : Z;
  e_person_id : Z;
  e_event : string
}.

(** The columns carried by the window sub-selects. *)
Record Row := mkRow {
  aggregation_target : Z;
  timestamp : Z;
  step_0 : Z;
  latest_0 : option Z;
  step_1 : Z;
  latest_1 : option Z;
  step_2 : Z;
  latest_2 : option Z
}.

(** The depth sub-select adds three columns. *)
Record Evaluated := mkEvaluated {
  base : Row;
  steps : Z;
  step_1_conversion_time : option Z;
  step_2_conversion_time : option Z
}.

(** A row of the [persons] sub-select. *)
Record Person := mkPerson {
  id : Z;
  created_at : Z
}.

(** ** Innermost select: the step flags *)

Definition step_flag (name : string) (e : Event) : Z :=
  if String.eqb (e_event e) name then 1 else 0.

Definition stamp_if (flag : Z) (t : Z) : option Z :=
  if ifNull (equals (Some flag) (Some 1)) false then Some t else None.

Definition classify (e : Event) : Row :=
  let t := e_timestamp e in
  let s0 := step_flag "step one" e in
  let s1 := step_flag "step two" e in
  let s2 := step_flag "step three" e in
  {| aggregation_target := e_person_id e;
     timestamp := t;
     step_0 := s0; latest_0 := stamp_if s0 t;
     step_1 := s1; latest_1 := stamp_if s1 t;
     step_2 := s2; latest_2 := stamp_if s2 t |}.

Definition flag_set (flag : Z) : bool := ifNull (equals (Some flag) (Some 1)) false.

(* WHERE of the innermost select: date range, event names, some flag set. *)
Definition in_range (date_from date_to : Z) (e : Event) : bool :=
  ifNull (greaterOrEquals (Some (e_timestamp e)) (Some date_from)) false
  && ifNull (lessOrEquals (Some (e_timestamp e)) (Some date_to)) false.

Definition in_tuple (e : Event) : bool :=
  String.eqb (e_event e) "step one" || String.eqb (e_event e) "step three"
  || String.eqb (e_event e) "step two".

Definition any_flag (r : Row) : bool :=
  flag_set (step_0 r) || flag_set (step_1 r) || flag_set (step_2 r).

Definition fetched (date_from date_to : Z) (events : list Event) : list Event :=
  List.filter (fun e => in_range date_from date_to e && in_tuple e) events.

Definition step_rows (date_from date_to : Z) (events : list Event) : list Row :=
  List.filter any_flag (classify <$> fetched date_from date_to events).

(** ** Window sub-selects

    Each window sub-select orders the rows of a partition by
    [timestamp DESC]; rows of equal timestamp stay in the order in which
    they are read.  The frame
    [ROWS BETWEEN UNBOUNDED PRECEDING AND 0 PRECEDING]
    of a row holds the rows ordered before it and the row itself.

    [window_rows] lists a table in that order, last row first.  In such a
    list the frame of a row is the row itself followed by the rows of its
    aggregation target listed after it, which is what [frame] takes.  The
    sub-selects pass the timestamps on unchanged, so the three of them order
    the rows alike and [window_resolve] orders once. *)

Fixpoint insert_desc {A} (key : A -> Z) (r : A) (ordered : list A) : list A :=
  match ordered with
  | [] => [r]
  | x :: rest =>
      if key r <? key x then x :: insert_desc key r rest else r :: x :: rest
  end.

(* [x] may stand before [y] in ORDER BY key DESC. *)
Definition descending {A} (key : A -> Z) (x y : A) : Prop := key y <= key x.

(* ORDER BY key DESC *)
Definition order_by_desc {A} (key : A -> Z) (rows : list A) : list A :=
  foldr (insert_desc key) [] rows.

Definition window_rows (rows : list Row) : list Row :=
  List.rev (order_by_desc timestamp rows).

Definition same_target (r r' : Row) : bool :=
  Z.eqb (aggregation_target r') (aggregation_target r).

Definition frame (r : Row) (later : list Row) : list Row :=
  r :: List.filter (same_target r) later.

Fixpoint over_frames (f : Row -> list Row -> Row) (rows : list Row) : list Row :=
  match rows with
  | [] => []
  | r :: later => f r (frame r later) :: over_frames f later
  end.

Definition set_latest_1 (r : Row) (v : option Z) : Row :=
  {| aggregation_target := aggregation_target r; timestamp := timestamp r;
     step_0 := step_0 r; latest_0 := latest_0 r;
     step_1 := step_1 r; latest_1 := v;
     step_2 := step_2 r; latest_2 := latest_2 r |}.

Definition set_latest_2 (r : Row) (v : option Z) : Row :=
  {| aggregation_target := aggregation_target r; timestamp := timestamp r;
     step_0 := step_0 r; latest_0 := latest_0 r;
     step_1 := step_1 r; latest_1 := latest_1 r;
     step_2 := step_2 r; latest_2 := v |}.

(* min(latest_1) OVER (...) AS latest_1, min(latest_2) OVER (...) AS latest_2 *)
Definition running_min_1_2 (rows : list Row) : list Row :=
  over_frames (fun r fr =>
    set_latest_2 (set_latest_1 r (min_agg (latest_1 <$> fr))) (min_agg (latest_2 <$> fr))) rows.

(* if(ifNull(less(latest_2, latest_1), 0), NULL, latest_2) AS latest_2 *)
Definition null_out_2 (r : Row) : Row :=
  set_latest_2 r (if ifNull (less (latest_2 r) (latest_1 r)) false then None else latest_2 r).

(* min(latest_2) OVER (...) AS latest_2 *)
Definition running_min_2 (rows : list Row) : list Row :=
  over_frames (fun r fr => set_latest_2 r (min_agg (latest_2 <$> fr))) rows.

Definition resolve (rows : list Row) : list Row :=
  running_min_2 (null_out_2 <$> running_min_1_2 rows).

(* The three window sub-selects on a table in any order. *)
Definition window_resolve (rows : list Row) : list Row :=
  resolve (window_rows rows).

(** ** Depth sub-select *)

Definition steps_of (window : Z) (r : Row) : Z :=
  if ifNull (lessOrEquals (latest_0 r) (latest_1 r)) false
     && ifNull (lessOrEquals (latest_1 r) (plus (latest_0 r) window)) false
     && ifNull (lessOrEquals (latest_1 r) (latest_2 r)) false
     && ifNull (lessOrEquals (latest_2 r) (plus (latest_0 r) window)) false
  then 3
  else if ifNull (lessOrEquals (latest_0 r) (latest_1 r)) false
          && ifNull (lessOrEquals (latest_1 r) (plus (latest_0 r) window)) false
  then 2
  else 1.

Definition step_1_conversion_time_of (window : Z) (r : Row) : option Z :=
  if isNotNull (latest_1 r)
     && ifNull (lessOrEquals (latest_1 r) (plus (latest_0 r) window)) false
  then dateDiff_second (latest_0 r) (latest_1 r)
  else None.

Definition step_2_conversion_time_of (window : Z) (r : Row) : option Z :=
  if isNotNull (latest_2 r)
     && ifNull (lessOrEquals (latest_2 r) (plus (latest_1 r) window)) false
  then dateDiff_second (latest_1 r) (latest_2 r)
  else None.

Definition evaluate_row (window : Z) (r : Row) : Evaluated :=
  {| base := r;
     steps := steps_of window r;
     step_1_conversion_time := step_1_conversion_time_of window r;
     step_2_conversion_time := step_2_conversion_time_of window r |}.

(* ... FROM (resolved rows) WHERE ifNull(equals(step_0, 1), 0) *)
Definition evaluate (window : Z) (rows : list Row) : list Evaluated :=
  evaluate_row window <$> List.filter (fun r => flag_set (step_0 r)) rows.

(* The window written in the query text. *)
Definition conversion_window : Z := toIntervalDay 14.

(** ** Cohort sub-select: GROUP BY aggregation_target, entrance_period_start *)

Record Cohort := mkCohort {
  actor : Z;
  entrance_period_start : Z;
  steps_completed : Z
}.

Definition period_of (r : Evaluated) : Z := toStartOfDay (timestamp (base r)).

Definition group_key (r : Evaluated) : Z * Z :=
  (aggregation_target (base r), period_of r).

(* max(steps) per group; a group exists once a row with its key was read. *)
Definition add_to_group (r : Evaluated) (groups : gmap (Z * Z) Z) : gmap (Z * Z) Z :=
  <[group_key r :=
      match groups !! group_key r with
      | Some best => Z.max best (steps r)
      | None => steps r
      end]> groups.

Definition group_max (rows : list Evaluated) : gmap (Z * Z) Z :=
  foldr add_to_group ∅ rows.

Definition cohort_rows (groups : gmap (Z * Z) Z) : list Cohort :=
  (fun kv => mkCohort (fst (fst kv)) (snd (fst kv)) (snd kv)) <$> map_to_list groups.

(* WHERE ifNull(equals(entrance_period_start, <period>), 0) *)
Definition in_period (period : Z) (r : Evaluated) : bool :=
  ifNull (equals (Some (period_of r)) (Some period)) false.

Definition entrance_cohorts (period : Z) (rows : list Evaluated) : list Cohort :=
  cohort_rows (group_max (List.filter (in_period period) rows)).

(** ** Actor sub-select and the outer select *)

Inductive DepthPredicate :=
| at_least (k : Z)
| between (lo hi : Z).

Definition depth_holds (d : DepthPredicate) (c : Cohort) : bool :=
  match d with
  | at_least k => ifNull (greaterOrEquals (Some (steps_completed c)) (Some k)) false
  | between lo hi =>
      ifNull (greaterOrEquals (Some (steps_completed c)) (Some lo)) false
      && ifNull (less (Some (steps_completed c)) (Some hi)) false
  end.

Record Query := mkQuery {
  date_from : Z;
  date_to : Z;
  window : Z;
  entrance_period : Z;
  depth : DepthPredicate
}.

Definition resolved_rows (q : Query) (events : list Event) : list Row :=
  window_resolve (step_rows (date_from q) (date_to q) events).

Definition evaluated_entrances (q : Query) (events : list Event) : list Evaluated :=
  evaluate (window q) (resolved_rows q events).

Definition cohorts (q : Query) (events : list Event) : list Cohort :=
  entrance_cohorts (entrance_period q) (evaluated_entrances q events).

(* SELECT aggregation_target AS actor_id ... WHERE <depth> ORDER BY aggregation_target ASC *)
Definition source (q : Query) (events : list Event) : list Z :=
  merge_sort Z.le (actor <$> List.filter (depth_holds (depth q)) (cohorts q events)).

(* persons INNER JOIN source ON equals(persons.id, source.actor_id) *)
Definition inner_join (persons : list Person) (actors : list Z) : list Person :=
  p ← persons; List.map (fun _ => p) (List.filter (Z.eqb (id p)) actors).

Definition newest_first (p p' : Person) : Prop := created_at p' <= created_at p.

(* ORDER BY created_at DESC fixes the order of rows up to rows of equal
   creation time; any arrangement sorted on that key is a possible answer. *)
Definition ordered_by_created_at_desc (rows ordered : list Person) : Prop :=
  ordered ≡ₚ rows /\ StronglySorted newest_first ordered.

Definition limit_offset (limit offset : nat) {A} (rows : list A) : list A :=
  take limit (drop offset rows).

Definition query_result (q : Query) (persons : list Person) (events : list Event)
    (out : list Person) : Prop :=
  exists ordered,
    ordered_by_created_at_desc (inner_join persons (source q events)) ordered
    /\ out = limit_offset 101 0 ordered.

(** The three queries of the snapshot file. *)

Definition may_1_2021 : Z := 1619827200 * microseconds_per_second.
Definition may_7_2021_end : Z := 1620431999 * microseconds_per_second + 999999.

Definition snapshot (d : DepthPredicate) : Query :=
  {| date_from := may_1_2021; date_to := may_7_2021_end;
     window := conversion_window; entrance_period := may_1_2021; depth := d |}.

Definition returns_recordings : Query := snapshot (at_least 2).
Definition with_drop_off : Query := snapshot (between 1 3).
Definition with_no_to_step : Query := snapshot (at_least 3).

(** * Vocabulary of the properties *)

(** ** The min aggregate *)

(** [v] is the least of the timestamps satisfying [P], or absent when there
    is none. *)
Definition smallest (P : Z -> Prop) (v : option Z) : Prop :=
  match v with
  | Some m => P m /\ forall t, P t -> m <= t
  | None => forall t, ~ P t
  end.

(** A possibly absent timestamp that, when present, is not below [a]. *)
Definition not_before (a : Z) (v : option Z) : Prop :=
  match v with Some t => a <= t | None => True end.

(** ** Frames of a single aggregation target *)

Definition stamped (r : Row) : Prop :=
  (latest_1 r = None \/ latest_1 r = Some (timestamp r))
  /\ (latest_2 r = None \/ latest_2 r = Some (timestamp r)).

(** Rows of one aggregation target are listed by ascending timestamp. *)
Definition in_time_order (r r' : Row) : Prop :=
  aggregation_target r = aggregation_target r' -> timestamp r <= timestamp r'.

Definition ascending (rows : list Row) : Prop := StronglySorted in_time_order rows.

Definition one_target (a : Z) (l : list Row) : Prop :=
  Forall (fun y => aggregation_target y = a) l.

Definition nullify (v2 v1 : option Z) : option Z :=
  if ifNull (less v2 v1) false then None else v2.

(** What the three window sub-selects leave in [latest_2] for the first row
    of a frame [fr]: the least step-2 stamp of the frame that is not below
    the frame's least step-1 stamp. *)
Definition resolved_2 (fr : list Row) : option Z :=
  min_agg ((fun x => nullify (latest_2 x) (min_agg (latest_1 <$> fr))) <$> fr).

(** The [latest_2] column after the second sub-select, for a list of rows of
    one target. *)
Fixpoint nulled_column (l : list Row) : list (option Z) :=
  match l with
  | [] => []
  | x :: l' =>
      nullify (min_agg (latest_2 <$> x :: l')) (min_agg (latest_1 <$> x :: l'))
      :: nulled_column l'
  end.

(** [w] is absent or not below [v]; absent counts as the largest value. *)
Definition above (v w : option Z) : Prop :=
  match w with
  | None => True
  | Some s => match v with Some m => m <= s | None => False end
  end.

(** The row the window sub-selects return for [r], whose partition
    continues with [later]. *)
Definition resolved_row (r : Row) (later : list Row) : Row :=
  {| aggregation_target := aggregation_target r; timestamp := timestamp r;
     step_0 := step_0 r; latest_0 := latest_0 r;
     step_1 := step_1 r; latest_1 := min_agg (latest_1 <$> frame r later);
     step_2 := step_2 r; latest_2 := min_agg (nulled_column (frame r later)) |}.

(** ** From events to resolved rows *)

(** The events the innermost select keeps, in the order of the window, last
    event first. *)
Definition window_events (events : list Event) : list Event :=
  List.rev (order_by_desc e_timestamp events).

Definition windowed (date_from date_to : Z) (events : list Event) : list Event :=
  window_events (fetched date_from date_to events).

(** The events the window orders at or before [e], for [e] read after [pre]
    and before [post]: [e] itself, the events of a later timestamp, and the
    events of the same timestamp read before it. *)
Definition window_frame (pre : list Event) (e : Event) (post : list Event) : list Event :=
  e :: List.filter (fun x => e_timestamp e <=? e_timestamp x) pre
    ++ List.filter (fun x => e_timestamp e <? e_timestamp x) post.

(** Events of one person are supplied by ascending timestamp. *)
Definition event_order (e e' : Event) : Prop :=
  e_person_id e = e_person_id e' -> e_timestamp e <= e_timestamp e'.

Definition sorted_per_actor (events : list Event) : Prop :=
  StronglySorted event_order events.

Definition step_name (i : Z) : string :=
  if i =? 0 then "step one" else if i =? 1 then "step two" else "step three".

(** [t] is the timestamp of an event of [who] in [evs] carrying the signal of
    step [i]. *)
Definition occurs (i : Z) (who : Z) (evs : list Event) (t : Z) : Prop :=
  exists e, In e evs /\ e_person_id e = who /\ e_event e = step_name i
            /\ e_timestamp e = t.

(** ** Window Resolver *)

(** [t] is not before the previous step's timestamp, when that is present. *)
Definition from (prev : option Z) (t : Z) : Prop :=
  forall a, prev = Some a -> a <= t.

(** [t] is at or after the previous step's timestamp, which is present. *)
Definition at_or_after (prev : option Z) (t : Z) : Prop :=
  exists a, prev = Some a /\ a <= t.

(** What the specification asks of [latest[i]], [i > 0]: the smallest
    timestamp at or after [latest[i-1]] among the events of the actor
    carrying the step-[i] signal, absent when there is none. *)
Definition next_occurrence (i who : Z) (evs : list Event) (prev v : option Z) : Prop :=
  smallest (fun t => occurs i who evs t /\ at_or_after prev t) v.

(** What the window sub-selects compute: the candidates are the events from
    the entrance on, and a missing [latest[i-1]] excludes nothing. *)
Definition resolved_occurrence (i who : Z) (evs : list Event) (prev v : option Z) : Prop :=
  smallest (fun t => occurs i who evs t /\ from prev t) v.

(** ** Depth Evaluator *)

Definition total_steps : Z := 3.

(** The resolved timestamps of a row as the array [latest[0..N)]. *)
Definition latest (r : Row) (i : Z) : option Z :=
  if i =? 0 then latest_0 r
  else if i =? 1 then latest_1 r
  else if i =? 2 then latest_2 r
  else None.



Definition per_step_duration (x : Evaluated) (i : Z) : option Z :=
  if i =? 1 then step_1_conversion_time x
  else if i =? 2 then step_2_conversion_time x
  else None.

(** ** Entrance Aggregator *)

(** The timestamps whose day start fits the 32-bit DateTime returned by
    [toStartOfDay]: from 1970-01-01 up to, not including, 2106-02-08. *)
Definition in_DateTime_days (t : Z) : Prop :=
  0 <= t < 49711 * microseconds_per_day.

(** [p] is [t] truncated to the day. *)
Definition day_start_of (t p : Z) : Prop :=
  p mod microseconds_per_day = 0 /\ p <= t < p + microseconds_per_day.

(** [p] is a DateTime: whole seconds that fit 32 bits without sign. *)
Definition is_DateTime (p : Z) : Prop :=
  p mod microseconds_per_second = 0 /\ 0 <= p < 2 ^ 32 * microseconds_per_second.

(** [s] is the greatest element of [l]. *)
Definition is_max_of (s : Z) (l : list Z) : Prop :=
  In s l /\ forall x, In x l -> x <= s.

(** The depths of the entrances of actor [a] whose timestamp truncates to
    period [p]. *)
Definition entrance_depths (a p : Z) (rows : list Evaluated) : list Z :=
  steps <$> List.filter (fun r => bool_decide (group_key r = (a, p))) rows.

Definition cohort_key (c : Cohort) : Z * Z := (actor c, entrance_period_start c).

(** ** Trend Selector *)

Definition depth_spec (d : DepthPredicate) (s : Z) : Prop :=
  match d with
  | at_least k => k <= s
  | between lo hi => lo <= s < hi
  end.

(** Rows ordered by creation time descending, rows of equal creation time
    ordered by [tie] on the actor id. *)
Definition ordered_with_tie_break (tie : Z -> Z -> Prop) (out : list Person) : Prop :=
  StronglySorted
    (fun p p' => created_at p' < created_at p
                 \/ (created_at p' = created_at p /\ tie (id p) (id p'))) out.

(** * Sample data *)

Definition actor_A_events : list Event :=
  [ mkEvent may_1_2021 1 "step one";
    mkEvent (may_1_2021 + toIntervalDay 1) 1 "step two";
    mkEvent (may_1_2021 + toIntervalDay 2) 1 "step three" ].

Definition actor_A_entrance : Evaluated :=
  {| base := {| aggregation_target := 1; timestamp := 1619827200000000;
                step_0 := 1; latest_0 := Some 1619827200000000;
                step_1 := 0; latest_1 := Some 1619913600000000;
                step_2 := 0; latest_2 := Some 1620000000000000 |};
     steps := 3;
     step_1_conversion_time := Some 86400;
     step_2_conversion_time := Some 86400 |}.

(* A person who enters and later does step three without ever doing step two. *)
Definition skipping_events : list Event :=
  [ mkEvent may_1_2021 7 "step one";
    mkEvent (may_1_2021 + toIntervalDay 1) 7 "step three" ].

(* Actor B enters on May 1 and does step two twenty days later. *)
Definition actor_B_events : list Event :=
  [ mkEvent may_1_2021 2 "step one";
    mkEvent (may_1_2021 + toIntervalDay 20) 2 "step two" ].

(* Actors A and B in one table, by ascending timestamp. *)
Definition actors_A_B_events : list Event :=
  [ mkEvent may_1_2021 1 "step one";
    mkEvent may_1_2021 2 "step one";
    mkEvent (may_1_2021 + toIntervalDay 1) 1 "step two";
    mkEvent (may_1_2021 + toIntervalDay 2) 1 "step three";
    mkEvent (may_1_2021 + toIntervalDay 20) 2 "step two" ].

Definition may_query_with (d : DepthPredicate) : Query :=
  {| date_from := may_1_2021; date_to := may_1_2021 + toIntervalDay 31;
     window := conversion_window; entrance_period := may_1_2021; depth := d |}.

(* Two entrances of one actor on the same day, of depths 1 and 3. *)
Definition two_entrances : list Evaluated :=
  [ {| base := {| aggregation_target := 1; timestamp := may_1_2021 + 5;
                  step_0 := 1; latest_0 := Some (may_1_2021 + 5);
                  step_1 := 0; latest_1 := None;
                  step_2 := 0; latest_2 := None |};
       steps := 1; step_1_conversion_time := None; step_2_conversion_time := None |};
    actor_A_entrance ].

(* A step two with the timestamp of the entrance, read after it. *)
Definition tied_events : list Event :=
  [ mkEvent may_1_2021 8 "step one";
    mkEvent may_1_2021 8 "step two" ].

Ltac concrete_order :=
  unfold sorted_per_actor;
  repeat (first [ apply SSorted_nil | apply SSorted_cons
                | apply List.Forall_nil | apply List.Forall_cons ]);
  unfold event_order; intros _; vm_compute; discriminate.

(* Person 3 enters and does step three; the only step two is person 4's. *)
Definition interleaved_events : list Event :=
  [ mkEvent may_1_2021 3 "step one";
    mkEvent (may_1_2021 + 1000000) 4 "step two";
    mkEvent (may_1_2021 + 2000000) 3 "step three" ].

Definition interleaved_entrance : Evaluated :=
  {| base := {| aggregation_target := 3; timestamp := 1619827200000000;
                step_0 := 1; latest_0 := Some 1619827200000000;
                step_1 := 0; latest_1 := None;
                step_2 := 0; latest_2 := Some 1619827202000000 |};
     steps := 1;
     step_1_conversion_time := None;
     step_2_conversion_time := None |}.

(* An entrance at one in the morning of 2110-05-01, day 51254 of the epoch,
   and the query for that day. *)
Definition may_1_2110 : Z := 51254 * microseconds_per_day.

Definition query_2110 : Query :=
  {| date_from := may_1_2110; date_to := may_1_2110 + toIntervalDay 7;
     window := conversion_window; entrance_period := may_1_2110;
     depth := at_least 1 |}.

Definition events_2110 : list Event :=
  [ mkEvent (may_1_2110 + 3600 * microseconds_per_second) 1 "step one" ].

(* An entrance 0.9 s after midnight and a step two 0.2 s later. *)
Definition sub_second_events : list Event :=
  [ mkEvent (may_1_2021 + 900000) 9 "step one";
    mkEvent (may_1_2021 + 1100000) 9 "step two" ].

(* A query over all of May 2021, with the 14 day window. *)
Definition may_query : Query :=
  {| date_from := may_1_2021; date_to := may_1_2021 + toIntervalDay 31;
     window := conversion_window; entrance_period := may_1_2021;
     depth := at_least 2 |}.

Definition slow_events : list Event :=
  [ mkEvent may_1_2021 5 "step one";
    mkEvent (may_1_2021 + toIntervalDay 10) 5 "step two";
    mkEvent (may_1_2021 + toIntervalDay 20) 5 "step three" ].

(* Two persons created at the same instant, both reaching step two. *)
Definition twin_1 : Person := mkPerson 1 1600000000000000.
Definition twin_2 : Person := mkPerson 2 1600000000000000.

Definition twin_events : list Event :=
  [ mkEvent may_1_2021 1 "step one";
    mkEvent (may_1_2021 + 1000000) 2 "step one";
    mkEvent (may_1_2021 + 2000000) 1 "step two";
    mkEvent (may_1_2021 + 3000000) 2 "step two" ].

(** ** Vocabulary of the further properties *)

(** The rows of aggregation target [a]. *)
Definition of_actor (a : Z) (r : Row) : bool := Z.eqb (aggregation_target r) a.


(** The same query with another depth predicate. *)
Definition set_depth (q : Query) (d : DepthPredicate) : Query :=
  {| date_from := date_from q; date_to := date_to q; window := window q;
     entrance_period := entrance_period q; depth := d |}.

(** [e] is a "step one" event in the date range, on the requested day, at a
    time whose day start fits a DateTime. *)
Definition entered_on_day (q : Query) (e : Event) : Prop :=
  e_event e = "step one"
  /\ date_from q <= e_timestamp e <= date_to q
  /\ in_DateTime_days (e_timestamp e)
  /\ day_start_of (e_timestamp e) (entrance_period q).

(** [e] is an entrance the query sees: a "step one" event in the date range
    whose [toStartOfDay] is the requested entrance period. *)
Definition entrance_in_period (q : Query) (e : Event) : Prop :=
  e_event e = "step one"
  /\ date_from q <= e_timestamp e <= date_to q
  /\ toStartOfDay (e_timestamp e) = entrance_period q.

(** ** The [persons] and [e__pdi] sub-selects and the join with [events] *)

(** The three stored tables, with the columns the query reads. *)
Module person.
Record row := mk {
  id : Z;
  team_id : Z;
  created_at : Z;
  version : Z;
  is_deleted : Z
}.
End person.

Module person_distinct_id2.
Record row := mk {
  team_id : Z;
  distinct_id : string;
  person_id : Z;
  version : Z;
  is_deleted : Z
}.
End person_distinct_id2.

Module events.
Record row := mk {
  team_id : Z;
  timestamp : Z;
  distinct_id : string;
  event : string
}.
End events.

(* argMax(arg, val): [arg] of a row of greatest [val]; of several such rows
   the first listed is used; NULL for no row. *)
Fixpoint argMax_row {R} (val : R -> Z) (rows : list R) : option R :=
  match rows with
  | [] => None
  | r :: rest =>
      match argMax_row val rest with
      | Some r' => if val r <? val r' then Some r' else Some r
      | None => Some r
      end
  end.

Definition argMax {R A} (arg : R -> A) (val : R -> Z) (rows : list R) : option A :=
  match argMax_row val rows with Some r => Some (arg r) | None => None end.

(* The rows of the GROUP BY group of key [k]. *)
Definition group_of {R K} `{EqDecision K} (key : R -> K) (k : K) (rows : list R) : list R :=
  List.filter (fun r => bool_decide (key r = k)) rows.

(* SELECT argMax(arg, version), key FROM rows GROUP BY key
   HAVING ifNull(equals(argMax(is_deleted, version), 0), 0) *)
Definition latest_live {R K A} `{EqDecision K}
    (key : R -> K) (arg : R -> A) (version is_deleted : R -> Z)
    (rows : list R) : list (K * A) :=
  k ← remove_dups (key <$> rows);
  let group := group_of key k rows in
  if ifNull (equals (argMax is_deleted version group) (Some 0)) false
  then match argMax arg version group with
       | Some v => [(k, v)]
       | None => []
       end
  else [].

Definition persons (team : Z) (table : list person.row) : list Person :=
  (fun kv => mkPerson (fst kv) (snd kv))
    <$> latest_live person.id person.created_at person.version person.is_deleted
          (List.filter
             (fun r => ifNull (equals (Some (person.team_id r)) (Some team)) false)
             table).

Definition e__pdi (team : Z) (table : list person_distinct_id2.row) : list (string * Z) :=
  latest_live person_distinct_id2.distinct_id person_distinct_id2.person_id
    person_distinct_id2.version person_distinct_id2.is_deleted
    (List.filter
       (fun r => ifNull (equals (Some (person_distinct_id2.team_id r)) (Some team)) false)
       table).

(* events AS e INNER JOIN (...) AS e__pdi ON equals(e.distinct_id, e__pdi.distinct_id)
   WHERE equals(e.team_id, team), in the order of the events table *)
Definition joined_events (team : Z) (pdi : list person_distinct_id2.row)
    (table : list events.row) : list Event :=
  e ← List.filter
         (fun e => ifNull (equals (Some (events.team_id e)) (Some team)) false) table;
  List.map (fun o => mkEvent (events.timestamp e) (snd o) (events.event e))
    (List.filter (fun o => String.eqb (events.distinct_id e) (fst o)) (e__pdi team pdi)).

(** The whole query over the stored tables. *)
Definition funnel_trend_persons (q : Query) (team : Z)
    (person_table : list person.row) (pdi : list person_distinct_id2.row)
    (events_table : list events.row) (out : list Person) : Prop :=
  query_result q (persons team person_table) (joined_events team pdi events_table) out.

(** [r] is a newer version than every other row of [rows]. *)
Definition strictly_newest {R} (version : R -> Z) (r : R) (rows : list R) : Prop :=
  In r rows /\ forall r', In r' rows -> r' = r \/ version r' < version r.

(* Stored rows used in the examples. *)
Definition person_rows : list person.row :=
  [ person.mk 1 2 1600000000000000 0 0;
    person.mk 1 2 1600000000000000 1 1;
    person.mk 2 2 1600000000000000 0 0;
    person.mk 3 9 1600000000000000 0 0 ].

Definition pdi_rows : list person_distinct_id2.row :=
  [ person_distinct_id2.mk 2 "anon-1" 1 0 0;
    person_distinct_id2.mk 2 "anon-2" 2 0 0;
    person_distinct_id2.mk 2 "anon-4" 2 0 0;
    person_distinct_id2.mk 2 "anon-4" 2 1 1 ].

Definition event_rows : list events.row :=
  [ events.mk 2 may_1_2021 "anon-1" "step one";
    events.mk 2 (may_1_2021 + 1000000) "anon-2" "step one";
    events.mk 2 (may_1_2021 + 2000000) "anon-1" "step two";
    events.mk 2 (may_1_2021 + 3000000) "anon-2" "step two";
    events.mk 2 (may_1_2021 + 4000000) "anon-4" "step three";
    events.mk 2 (may_1_2021 + 5000000) "anon-9" "step three" ].

(** ** Plugin server capabilities *)

Module PluginServer.

(* The values of [config.PLUGIN_SERVER_MODE] other than [null], as the cases
   of the switch list them. *)
Inductive PluginServerMode :=
| mode_ingestion
| mode_ingestion_overflow
| mode_analytics_ingestion
| mode_recordings_ingestion
| mode_async
| mode_exports
| mode_jobs
| mode_scheduler.

(* An object with optional boolean keys; [None] is an absent key. *)
Record PluginServerCapabilities := mkCapabilities {
  ingestion : option bool;
  ingestionOverflow : option bool;
  pluginScheduledTasks : option bool;
  processPluginJobs : option bool;
  processAsyncHandlers : option bool;
  sessionRecordingIngestion : option bool;
  http : option bool
}.

Definition no_capabilities : PluginServerCapabilities :=
  mkCapabilities None None None None None None None.

Definition later_key (first later : option bool) : option bool :=
  match later with Some v => Some v | None => first end.

(* { ...a, ...b }: keys of [b] replace keys of [a]. *)
Definition spread (a b : PluginServerCapabilities) : PluginServerCapabilities :=
  {| ingestion := later_key (ingestion a) (ingestion b);
     ingestionOverflow := later_key (ingestionOverflow a) (ingestionOverflow b);
     pluginScheduledTasks := later_key (pluginScheduledTasks a) (pluginScheduledTasks b);
     processPluginJobs := later_key (processPluginJobs a) (processPluginJobs b);
     processAsyncHandlers := later_key (processAsyncHandlers a) (processAsyncHandlers b);
     sessionRecordingIngestion :=
       later_key (sessionRecordingIngestion a) (sessionRecordingIngestion b);
     http := later_key (http a) (http b) |}.

(* [isTestEnv] is imported; its result is the argument [is_test_env]. *)
Definition getPluginServerCapabilities (is_test_env : bool)
    (mode : option PluginServerMode) : PluginServerCapabilities :=
  let sharedCapabilities :=
    if negb is_test_env
    then mkCapabilities None None None None None None (Some true)
    else no_capabilities in
  match mode with
  | None =>
      spread (mkCapabilities (Some true) (Some true) (Some true) (Some true)
                (Some true) (Some true) None) sharedCapabilities
  | Some mode_ingestion =>
      spread (mkCapabilities (Some true) None None None None (Some true) None)
        sharedCapabilities
  | Some mode_ingestion_overflow =>
      spread (mkCapabilities None (Some true) None None None None None)
        sharedCapabilities
  | Some mode_analytics_ingestion =>
      spread (mkCapabilities (Some true) None None None None None None)
        sharedCapabilities
  | Some mode_recordings_ingestion =>
      spread (mkCapabilities None None None None None (Some true) None)
        sharedCapabilities
  | Some mode_async =>
      spread (mkCapabilities None None (Some true) (Some true) (Some true) None None)
        sharedCapabilities
  | Some mode_exports =>
      spread (mkCapabilities None None None None (Some true) None None)
        sharedCapabilities
  | Some mode_jobs =>
      spread (mkCapabilities None None None (Some true) None None None)
        sharedCapabilities
  | Some mode_scheduler =>
      spread (mkCapabilities None None (Some true) None None None None)
        sharedCapabilities
  end.

(** The keys of an object with their values, in declaration order. *)
Definition keys (c : PluginServerCapabilities) : list (option bool) :=
  [ ingestion c; ingestionOverflow c; pluginScheduledTasks c; processPluginJobs c;
    processAsyncHandlers c; sessionRecordingIngestion c; http c ].

(** Every key present in [c] is present in [c'] with the same value. *)
Definition included (c c' : PluginServerCapabilities) : Prop :=
  Forall2 (fun v v' => forall b, v = Some b -> v' = Some b) (keys c) (keys c').

End PluginServer.

(** * Lemmas *)

Section MinAggregate.

Lemma min_agg_cons v col : min_agg (v :: col) = min2 v (min_agg col).
Proof. reflexivity. Qed.

Lemma min2_not_before a v w :
  not_before a v -> not_before a w -> not_before a (min2 v w).
Proof. destruct v, w; simpl; intros; try lia; auto. Qed.

Lemma min_agg_not_before a col :
  Forall (not_before a) col -> not_before a (min_agg col).
Proof.
  induction 1 as [|v col Hv _ IH]; [exact I|].
  rewrite min_agg_cons. now apply min2_not_before.
Qed.

Lemma min2_absorb a w : not_before a w -> min2 (Some a) w = Some a.
Proof. destruct w; simpl; [intros; f_equal; lia | reflexivity]. Qed.

Lemma min_agg_smallest col :
  smallest (fun t => In (Some t) col) (min_agg col).
Proof.
  induction col as [|v col IH]; [intros t []|].
  rewrite min_agg_cons. unfold smallest in *.
  destruct v as [a|], (min_agg col) as [m|]; simpl.
  - destruct IH as [Hin Hle]. split.
    + destruct (Z.min_spec a m) as [[_ ->]|[_ ->]]; auto.
    + intros t [[= <-]|Ht]; [lia|]. specialize (Hle t Ht). lia.
  - split; [auto|]. intros t [[= <-]|Ht]; [lia|]. now destruct (IH t).
  - destruct IH as [Hin Hle]. split; [auto|].
    intros t [[=]|Ht]. auto.
  - intros t [[=]|Ht]. now apply (IH t).
Qed.

Lemma smallest_iff P Q v : (forall t, P t <-> Q t) -> smallest P v -> smallest Q v.
Proof.
  intros HPQ. destruct v as [m|]; simpl.
  - intros [Pm Hm]. split; [now apply HPQ|]. intros t Qt. apply Hm. now apply HPQ.
  - intros Hn t Qt. apply (Hn t). now apply HPQ.
Qed.

End MinAggregate.

Section OneTarget.

Lemma nullify_not_before a v : not_before a v -> nullify v (Some a) = v.
Proof.
  destruct v as [t|]; [|reflexivity]. simpl. intros Ht.
  unfold nullify. simpl. now destruct (Z.ltb_spec t a); [lia|].
Qed.

Lemma nullify_absent a : nullify None a = None.
Proof. reflexivity. Qed.

Lemma nullify_cases v a : nullify v a = None \/ nullify v a = v.
Proof. unfold nullify. destruct (ifNull _ _); auto. Qed.

Lemma min2_above a b w : above b w -> min2 (min2 a b) w = min2 a b.
Proof.
  destruct w as [s|], b as [m|], a as [a'|]; simpl; intros H;
    try reflexivity; try contradiction; f_equal; lia.
Qed.

Lemma above_min2 v w v' w' :
  (w = None \/ w = v) -> above v' w' -> above (min2 v v') (min2 w w').
Proof.
  intros [->| ->]; destruct v as [a|], v' as [b|], w' as [c|]; simpl; intros H;
    try exact I; try contradiction; lia.
Qed.

Lemma above_min_agg (f g : Row -> option Z) l :
  (forall y, g y = None \/ g y = f y) ->
  above (min_agg (f <$> l)) (min_agg (g <$> l)).
Proof.
  intros Hfg. induction l as [|y l IH]; [exact I|].
  rewrite !fmap_cons, !min_agg_cons. now apply above_min2.
Qed.

Lemma min_agg_fmap_ext (f g : Row -> option Z) l :
  Forall (fun y => f y = g y) l -> min_agg (f <$> l) = min_agg (g <$> l).
Proof.
  induction 1 as [|y l Hy _ IH]; [reflexivity|].
  now rewrite !fmap_cons, !min_agg_cons, Hy, IH.
Qed.

Lemma min_agg_reaches (g : Row -> option Z) l y t :
  In y l -> g y = Some t -> exists s, min_agg (g <$> l) = Some s /\ s <= t.
Proof.
  intros Hy Hg. pose proof (min_agg_smallest (g <$> l)) as Hs.
  assert (Hin : In (Some t) (g <$> l)).
  { rewrite <- Hg. now apply in_map. }
  destruct (min_agg (g <$> l)) as [s|]; simpl in Hs.
  - exists s. split; [reflexivity|]. now apply Hs.
  - now destruct (Hs t).
Qed.

Variable a : Z.

Lemma later_not_before x l :
  aggregation_target x = a -> one_target a l -> Forall stamped l ->
  Forall (in_time_order x) l ->
  Forall (fun y => not_before (timestamp x) (latest_1 y)
                   /\ not_before (timestamp x) (latest_2 y)) l.
Proof.
  intros Hx Hone Hst Hord. induction l as [|y l IH]; [constructor|].
  pose proof (Forall_inv Hone) as Hy. pose proof (Forall_inv_tail Hone) as Hone'.
  destruct (Forall_inv Hst) as [H1 H2]. pose proof (Forall_inv_tail Hst) as Hst'.
  pose proof (Forall_inv Hord) as Hxy. pose proof (Forall_inv_tail Hord) as Hord'.
  cbv beta in Hy. constructor; [|now apply IH].
  assert (timestamp x <= timestamp y) by (apply Hxy; congruence).
  split; [destruct H1 as [->| ->] | destruct H2 as [->| ->]]; simpl; auto.
Qed.

Lemma nulled_column_resolved l :
  one_target a l -> Forall stamped l -> ascending l ->
  min_agg (nulled_column l) = resolved_2 l.
Proof.
  induction l as [|x l IH]; [reflexivity|].
  intros Hone Hst Hasc.
  pose proof (Forall_inv Hone) as Hx. pose proof (Forall_inv_tail Hone) as Hone'.
  destruct (Forall_inv Hst) as [H1 H2]. pose proof (Forall_inv_tail Hst) as Hst'.
  destruct (StronglySorted_inv Hasc) as [Hasc' Hord]. cbv beta in Hx.
  specialize (IH Hone' Hst' Hasc').
  pose proof (later_not_before x l Hx Hone' Hst' Hord) as Hnb.
  assert (Hnb1 : not_before (timestamp x) (min_agg (latest_1 <$> l))).
  { apply min_agg_not_before. apply Forall_fmap.
    eapply Forall_impl; [exact Hnb|]. now intros y [? _]. }
  assert (Hnb2 : not_before (timestamp x) (min_agg (latest_2 <$> l))).
  { apply min_agg_not_before. apply Forall_fmap.
    eapply Forall_impl; [exact Hnb|]. now intros y [_ ?]. }
  unfold resolved_2. cbn [nulled_column].
  rewrite !fmap_cons, !min_agg_cons, IH.
  destruct H1 as [E1|E1]; rewrite E1.
  - (* the first row carries no step-1 stamp *)
    cbn [min2]. fold (resolved_2 l).
    destruct H2 as [E2|E2]; rewrite E2.
    + cbn [min2]. rewrite nullify_absent. cbn [min2].
      destruct (nullify_cases (min_agg (latest_2 <$> l)) (min_agg (latest_1 <$> l)))
        as [->|E]; [reflexivity|].
      rewrite E. destruct (min_agg (latest_2 <$> l)) as [t|] eqn:Em; [|reflexivity].
      pose proof (min_agg_smallest (latest_2 <$> l)) as Hs.
      rewrite Em in Hs. destruct Hs as [Hin _].
      apply in_map_iff in Hin. destruct Hin as (y & Hy & Hyl).
      destruct (min_agg_reaches
        (fun x0 => nullify (latest_2 x0) (min_agg (latest_1 <$> l))) l y t Hyl)
        as (s & Hs & Hle).
      { now rewrite Hy. }
      unfold resolved_2. rewrite Hs. simpl. f_equal. lia.
    + now rewrite (min2_absorb _ _ Hnb2).
  - (* the first row carries a step-1 stamp *)
    rewrite (min2_absorb _ _ Hnb1).
    rewrite (min_agg_fmap_ext
      (fun x0 => nullify (latest_2 x0) (Some (timestamp x))) latest_2 l).
    2:{ eapply Forall_impl; [exact Hnb|]. intros y [_ ?]. now apply nullify_not_before. }
    assert (Hx2 : not_before (timestamp x) (latest_2 x)).
    { destruct H2 as [->| ->]; simpl; [exact I | lia]. }
    rewrite !nullify_not_before; auto using min2_not_before.
    apply min2_above. apply above_min_agg. intros y. apply nullify_cases.
Qed.

End OneTarget.

(** ** The window sub-selects, row by row *)

Section Resolve.

Lemma same_target_eq r y : aggregation_target y = aggregation_target r ->
  forall l, List.filter (same_target y) l = List.filter (same_target r) l.
Proof.
  intros E l. apply filter_ext. intros z. unfold same_target. now rewrite E.
Qed.

Lemma frame_one_target r later :
  Forall (fun y => aggregation_target y = aggregation_target r) (frame r later).
Proof.
  constructor; [reflexivity|]. apply List.Forall_forall. intros y Hy.
  apply filter_In in Hy. destruct Hy as [_ Hy]. unfold same_target in Hy. lia.
Qed.

Lemma nulled_column_layers r l :
  latest_2 <$> List.filter (same_target r) (null_out_2 <$> running_min_1_2 l)
  = nulled_column (List.filter (same_target r) l).
Proof.
  induction l as [|y l IH]; [reflexivity|].
  unfold running_min_1_2 in *. cbn [over_frames]. rewrite fmap_cons.
  cbn [List.filter].
  assert (Hs : forall z v1 v2,
    same_target r (null_out_2 (set_latest_2 (set_latest_1 z v1) v2)) = same_target r z)
    by reflexivity.
  rewrite Hs. destruct (same_target r y) eqn:E; [|exact IH].
  apply Z.eqb_eq in E.
  rewrite fmap_cons, IH. cbn [nulled_column]. f_equal.
  unfold frame. now rewrite (same_target_eq r y E).
Qed.

Lemma resolve_cons r later :
  resolve (r :: later) = resolved_row r later :: resolve later.
Proof.
  unfold resolve, running_min_1_2, running_min_2. cbn [over_frames].
  rewrite fmap_cons. cbn [over_frames]. f_equal.
  unfold resolved_row. cbn [set_latest_2 set_latest_1 null_out_2
    aggregation_target timestamp step_0 latest_0 step_1 latest_1 step_2 latest_2].
  f_equal. unfold frame at 1. rewrite fmap_cons.
  rewrite (same_target_eq r); [|reflexivity].
  pose proof (nulled_column_layers r later) as E.
  unfold running_min_1_2 in E. rewrite E. reflexivity.
Qed.

Lemma resolve_lookup pre r later :
  resolve (pre ++ r :: later) !! length pre = Some (resolved_row r later).
Proof.
  induction pre as [|x pre IH]; cbn [app length]; rewrite resolve_cons;
    [reflexivity | exact IH].
Qed.

(** Every row returned is the resolved row of some input row and the rows
    listed after it. *)
Lemma resolve_In rows r' :
  In r' (resolve rows) ->
  exists pre r later, rows = pre ++ r :: later /\ r' = resolved_row r later.
Proof.
  induction rows as [|x rows IH]; [intros []|].
  rewrite resolve_cons. intros [<-|Hin].
  - now exists [], x, rows.
  - destruct (IH Hin) as (pre & r & later & -> & ->).
    now exists (x :: pre), r, later.
Qed.

Lemma ascending_frame r later :
  ascending (r :: later) -> ascending (frame r later).
Proof.
  intros H. inversion H as [|? ? Hl Hr]; subst. constructor.
  - clear Hr H. induction Hl as [|y l Hl IH Hy]; [constructor|].
    cbn [List.filter]. destruct (same_target r y); [|exact IH].
    constructor; [exact IH|]. apply List.Forall_forall. intros z Hz.
    apply filter_In in Hz. destruct Hz as [Hz _].
    rewrite List.Forall_forall in Hy. now apply Hy.
  - apply List.Forall_forall. intros z Hz. apply filter_In in Hz.
    destruct Hz as [Hz _]. rewrite List.Forall_forall in Hr. now apply Hr.
Qed.

Lemma stamped_frame r later :
  Forall stamped (r :: later) -> Forall stamped (frame r later).
Proof.
  intros H. inversion H as [|? ? Hr Hl]; subst. constructor; [exact Hr|].
  apply List.Forall_forall. intros z Hz. apply filter_In in Hz.
  destruct Hz as [Hz _]. rewrite List.Forall_forall in Hl. now apply Hl.
Qed.

Lemma resolved_row_latest_2 r later :
  Forall stamped (r :: later) -> ascending (r :: later) ->
  latest_2 (resolved_row r later) = resolved_2 (frame r later).
Proof.
  intros Hst Hasc. cbn [resolved_row latest_2].
  apply (nulled_column_resolved (aggregation_target r)).
  - apply frame_one_target.
  - now apply stamped_frame.
  - now apply ascending_frame.
Qed.

End Resolve.

(** ** The order of the window *)

Section Ordering.

Context {A : Type}.
Variable key : A -> Z.

Lemma insert_desc_Permutation r l : insert_desc key r l ≡ₚ r :: l.
Proof.
  induction l as [|x l IH]; [reflexivity|].
  cbn [insert_desc]. destruct (key r <? key x); [|reflexivity].
  rewrite IH. apply perm_swap.
Qed.

Lemma order_by_desc_Permutation l : order_by_desc key l ≡ₚ l.
Proof.
  induction l as [|x l IH]; [reflexivity|].
  unfold order_by_desc in *. cbn [foldr]. now rewrite insert_desc_Permutation, IH.
Qed.

Lemma order_by_desc_In l x : In x (order_by_desc key l) <-> In x l.
Proof. rewrite <- !list_elem_of_In. now rewrite order_by_desc_Permutation. Qed.

Lemma insert_desc_sorted r l :
  StronglySorted (descending key) l -> StronglySorted (descending key) (insert_desc key r l).
Proof.
  induction 1 as [|x l Hl IH Hx]; [repeat constructor|].
  cbn [insert_desc]. destruct (Z.ltb_spec (key r) (key x)) as [Hlt|Hge].
  - constructor; [exact IH|].
    apply List.Forall_forall. intros y Hy. apply list_elem_of_In in Hy.
    rewrite insert_desc_Permutation in Hy. apply list_elem_of_In in Hy.
    destruct Hy as [<-|Hy]; [unfold descending; lia|].
    rewrite List.Forall_forall in Hx. now apply Hx.
  - constructor; [now constructor|]. constructor; [exact Hge|].
    eapply Forall_impl; [exact Hx|]. intros y Hy. unfold descending in *. lia.
Qed.

Lemma order_by_desc_sorted l : StronglySorted (descending key) (order_by_desc key l).
Proof.
  induction l as [|x l IH]; [constructor|].
  unfold order_by_desc in *. cbn [foldr]. now apply insert_desc_sorted.
Qed.

Lemma rev_order_by_desc_sorted l :
  StronglySorted (fun x y => key x <= key y) (List.rev (order_by_desc key l)).
Proof.
  pose proof (order_by_desc_sorted l) as H.
  induction H as [|x l' Hl IH Hx]; [constructor|].
  cbn [List.rev]. apply StronglySorted_app. split; [|split; [exact IH|]].
  - intros y z Hy Hz. apply list_elem_of_In in Hy, Hz.
    destruct Hz as [<-|[]]. apply in_rev in Hy.
    rewrite List.Forall_forall in Hx. now apply Hx.
  - repeat constructor.
Qed.

Lemma insert_desc_pass a hi lo :
  Forall (fun x => key a < key x) hi ->
  insert_desc key a (hi ++ lo) = hi ++ insert_desc key a lo.
Proof.
  induction 1 as [|x hi Hx _ IH]; [reflexivity|].
  cbn [app insert_desc]. destruct (Z.ltb_spec (key a) (key x)); [|lia].
  now rewrite IH.
Qed.

Lemma insert_desc_stop a hi e lo :
  key e <= key a ->
  exists hi', insert_desc key a (hi ++ e :: lo) = hi' ++ e :: lo
              /\ forall x, In x hi' <-> x = a \/ In x hi.
Proof.
  intros Hea. induction hi as [|x hi IH].
  - exists [a]. cbn. destruct (Z.ltb_spec (key a) (key e)); [lia|].
    split; [reflexivity|]. intros y. intuition congruence.
  - cbn [app insert_desc]. destruct (key a <? key x).
    + destruct IH as (hi' & -> & Hin). exists (x :: hi'). split; [reflexivity|].
      intros y. cbn [In]. rewrite Hin. intuition congruence.
    + exists (a :: x :: hi). split; [reflexivity|]. intros y. cbn [In].
      intuition congruence.
Qed.

Lemma insert_desc_split e l :
  StronglySorted (descending key) l ->
  exists hi lo, insert_desc key e l = hi ++ e :: lo
                /\ forall x, In x hi <-> In x l /\ key e < key x.
Proof.
  induction 1 as [|x l Hl IH Hx].
  - exists [], []. split; [reflexivity|]. intros y. cbn. tauto.
  - cbn [insert_desc]. destruct (Z.ltb_spec (key e) (key x)) as [Hlt|Hge].
    + destruct IH as (hi & lo & -> & Hin). exists (x :: hi), lo.
      split; [reflexivity|]. intros y. cbn [In]. rewrite Hin.
      split; [intros [<-|[? ?]]; auto | tauto].
    + exists [], (x :: l). split; [reflexivity|]. intros y. cbn [In].
      split; [tauto|]. intros [[<-|Hy] Hlt]; [lia|].
      rewrite List.Forall_forall in Hx. specialize (Hx y Hy). unfold descending in Hx. lia.
Qed.

(** Where the stable order puts a row read after [pre] and before [post]:
    behind the rows of a later key and the rows of its own key read
    earlier. *)
Lemma order_by_desc_split pre e post :
  exists hi lo,
    order_by_desc key (pre ++ e :: post) = hi ++ e :: lo
    /\ forall x, In x hi <-> (In x pre /\ key e <= key x) \/ (In x post /\ key e < key x).
Proof.
  induction pre as [|a pre IH].
  - cbn [app]. unfold order_by_desc. cbn [foldr]. fold (order_by_desc key post).
    destruct (insert_desc_split e _ (order_by_desc_sorted post)) as (hi & lo & -> & Hin).
    exists hi, lo. split; [reflexivity|]. intros x. rewrite Hin, order_by_desc_In.
    cbn [In]. tauto.
  - destruct IH as (hi & lo & E & Hin). cbn [app]. unfold order_by_desc in *.
    cbn [foldr]. rewrite E. destruct (Z.le_gt_cases (key e) (key a)) as [Hle|Hgt].
    + destruct (insert_desc_stop a hi e lo Hle) as (hi' & -> & Hin').
      exists hi', lo. split; [reflexivity|]. intros x. rewrite Hin', Hin. cbn [In].
      split; [intros [->|[[? ?]|?]]; auto | intros [[[<-|?] ?]|?]; auto].
    + replace (hi ++ e :: lo) with ((hi ++ [e]) ++ lo) by now rewrite <- app_assoc.
      rewrite insert_desc_pass.
      * exists hi, (insert_desc key a lo). split; [now rewrite <- app_assoc|].
        intros x. rewrite Hin. cbn [In].
        split; [intros [[? ?]|?]; auto | intros [[[<-|?] ?]|?]; auto; lia].
      * apply Forall_app. split; [|repeat constructor; lia].
        apply List.Forall_forall. intros x Hx. apply Hin in Hx. lia.
Qed.

Lemma order_by_desc_app pre rows :
  (forall x y, In x pre -> In y rows -> key x < key y) ->
  order_by_desc key (pre ++ rows) = order_by_desc key rows ++ order_by_desc key pre.
Proof.
  intros Hlt. induction pre as [|a pre IH].
  - cbn [app]. unfold order_by_desc at 3. cbn [foldr]. now rewrite app_nil_r.
  - cbn [app].
    change (order_by_desc key (a :: pre ++ rows))
      with (insert_desc key a (order_by_desc key (pre ++ rows))).
    change (order_by_desc key (a :: pre))
      with (insert_desc key a (order_by_desc key pre)).
    rewrite IH by (intros x y Hx; apply Hlt; now right).
    apply insert_desc_pass. apply List.Forall_forall. intros y Hy.
    apply (proj1 (order_by_desc_In _ _)) in Hy. apply Hlt; [now left | exact Hy].
Qed.

End Ordering.

Lemma order_by_desc_fmap {A B} (key : B -> Z) (f : A -> B) l :
  order_by_desc key (f <$> l) = f <$> order_by_desc (fun x => key (f x)) l.
Proof.
  induction l as [|x l IH]; [reflexivity|].
  rewrite fmap_cons. unfold order_by_desc in *. cbn [foldr]. rewrite IH.
  generalize (foldr (insert_desc (fun x0 => key (f x0))) [] l). intros o.
  induction o as [|y o IHo]; [reflexivity|].
  rewrite fmap_cons. cbn [insert_desc].
  destruct (key (f x) <? key (f y)); [now rewrite IHo, fmap_cons | reflexivity].
Qed.

Section Events.

Lemma StronglySorted_filter {A} (R : A -> A -> Prop) (p : A -> bool) l :
  StronglySorted R l -> StronglySorted R (List.filter p l).
Proof.
  induction 1 as [|x l Hl IH Hx]; [constructor|].
  cbn [List.filter]. destruct (p x); [|exact IH].
  constructor; [exact IH|]. apply List.Forall_forall. intros z Hz.
  apply filter_In in Hz. destruct Hz as [Hz _].
  rewrite List.Forall_forall in Hx. now apply Hx.
Qed.

Lemma sorted_fetched df dt events :
  sorted_per_actor events -> sorted_per_actor (fetched df dt events).
Proof. apply StronglySorted_filter. Qed.

Lemma any_flag_classify e : in_tuple e = true -> any_flag (classify e) = true.
Proof.
  unfold in_tuple, any_flag, classify, step_flag, flag_set. cbn.
  destruct (String.eqb (e_event e) "step one"),
           (String.eqb (e_event e) "step two"),
           (String.eqb (e_event e) "step three"); cbn; auto; discriminate.
Qed.

Lemma step_rows_classify df dt events :
  step_rows df dt events = classify <$> fetched df dt events.
Proof.
  unfold step_rows.
  assert (H : Forall (fun e => in_tuple e = true) (fetched df dt events)).
  { apply List.Forall_forall. intros e He. apply filter_In in He.
    destruct He as [_ He]. apply andb_true_iff in He. tauto. }
  induction H as [|e l He _ IH]; [reflexivity|].
  rewrite fmap_cons. cbn [List.filter]. now rewrite (any_flag_classify e He), IH.
Qed.

Lemma stamped_classify evs : Forall stamped (classify <$> evs).
Proof.
  apply Forall_fmap. apply List.Forall_forall. intros e _.
  unfold stamped, classify, stamp_if, step_flag. cbn.
  destruct (String.eqb (e_event e) "step two"),
           (String.eqb (e_event e) "step three"); cbn; auto.
Qed.

Lemma ascending_classify evs :
  sorted_per_actor evs -> ascending (classify <$> evs).
Proof.
  induction 1 as [|e l Hl IH He]; [constructor|].
  rewrite fmap_cons. constructor; [exact IH|].
  apply Forall_fmap. eapply Forall_impl; [exact He|].
  intros e' Hee'. exact Hee'.
Qed.

Lemma latest_1_classify e :
  latest_1 (classify e) = if String.eqb (e_event e) "step two" then Some (e_timestamp e) else None.
Proof. unfold classify, stamp_if, step_flag. cbn. now destruct (String.eqb _ _). Qed.

Lemma latest_2_classify e :
  latest_2 (classify e) = if String.eqb (e_event e) "step three" then Some (e_timestamp e) else None.
Proof. unfold classify, stamp_if, step_flag. cbn. now destruct (String.eqb _ _). Qed.

Lemma latest_0_classify e :
  latest_0 (classify e) = if String.eqb (e_event e) "step one" then Some (e_timestamp e) else None.
Proof. unfold classify, stamp_if, step_flag. cbn. now destruct (String.eqb _ _). Qed.

Lemma step_0_classify e :
  flag_set (step_0 (classify e)) = String.eqb (e_event e) "step one".
Proof. unfold classify, flag_set, step_flag. cbn. now destruct (String.eqb _ _). Qed.

(** The frame of a classified event, read back as events. *)
Lemma In_frame_classify e after y :
  In y (frame (classify e) (classify <$> after)) <->
  exists e', In e' (e :: after) /\ e_person_id e' = e_person_id e /\ y = classify e'.
Proof.
  unfold frame. split.
  - intros [<-|Hy]; [exists e; cbn; auto|].
    apply filter_In in Hy. destruct Hy as [Hy Ht].
    apply in_map_iff in Hy. destruct Hy as (e' & <- & He').
    unfold same_target in Ht. cbn in Ht. apply Z.eqb_eq in Ht.
    exists e'. cbn. auto.
  - intros (e' & [<-|He'] & Hp & ->); [now left|]. right.
    apply filter_In. split; [now apply in_map|].
    unfold same_target. cbn. now apply Z.eqb_eq.
Qed.

End Events.

Section WindowResolver.

Lemma nullify_Some v prev t :
  nullify v prev = Some t <-> v = Some t /\ from prev t.
Proof.
  unfold nullify, from. destruct v as [x|], prev as [a|]; cbn.
  - destruct (Z.ltb_spec x a) as [Hlt|Hge]; split.
    + discriminate.
    + intros [[= ->] H]. specialize (H a eq_refl). lia.
    + intros [= ->]. split; [reflexivity|]. intros ? [= <-]. exact Hge.
    + now intros [? _].
  - split; [intros [= ->]; split; [reflexivity | discriminate] | now intros [? _]].
  - split; [discriminate | now intros [? _]].
  - split; [discriminate | now intros [? _]].
Qed.

Variables (e : Event) (after : list Event).

Let r := resolved_row (classify e) (classify <$> after).
Let who := e_person_id e.

Lemma resolved_latest_1 :
  smallest (occurs 1 who (e :: after)) (latest_1 r).
Proof.
  eapply smallest_iff; [|apply min_agg_smallest].
  intros t. rewrite in_map_iff. split.
  - intros (y & Hy & Hin). apply In_frame_classify in Hin.
    destruct Hin as (e' & He' & Hp & ->). rewrite latest_1_classify in Hy.
    destruct (String.eqb_spec (e_event e') "step two") as [E|]; [|discriminate].
    injection Hy as <-. now exists e'.
  - intros (e' & He' & Hp & Hn & <-). exists (classify e'). split.
    + rewrite latest_1_classify. change (step_name 1) with "step two" in Hn.
      now rewrite Hn.
    + apply In_frame_classify. now exists e'.
Qed.

Hypothesis sorted : sorted_per_actor (e :: after).

Lemma resolved_latest_2 :
  smallest (fun t => occurs 2 who (e :: after) t /\ from (latest_1 r) t) (latest_2 r).
Proof.
  unfold r. rewrite resolved_row_latest_2.
  2:{ apply (stamped_classify (e :: after)). }
  2:{ apply (ascending_classify (e :: after) sorted). }
  eapply smallest_iff; [|apply min_agg_smallest].
  intros t. rewrite in_map_iff. split.
  - intros (y & Hy & Hin). apply nullify_Some in Hy. destruct Hy as [Hy Hfrom].
    apply In_frame_classify in Hin.
    destruct Hin as (e' & He' & Hp & ->). rewrite latest_2_classify in Hy.
    destruct (String.eqb_spec (e_event e') "step three") as [E|]; [|discriminate].
    injection Hy as <-. split; [now exists e' | exact Hfrom].
  - intros [(e' & He' & Hp & Hn & <-) Hfrom]. exists (classify e'). split.
    + apply nullify_Some. split; [|exact Hfrom].
      rewrite latest_2_classify. change (step_name 2) with "step three" in Hn.
      now rewrite Hn.
    + apply In_frame_classify. now exists e'.
Qed.

Lemma occurs_later i t : occurs i who (e :: after) t -> e_timestamp e <= t.
Proof.
  intros (e' & [<-|He'] & Hp & _ & <-); [lia|].
  inversion sorted as [|? ? _ Hord]; subst.
  rewrite List.Forall_forall in Hord. apply (Hord e' He'). now symmetry.
Qed.

Lemma resolved_chain :
  (forall a b, latest_0 r = Some a -> latest_1 r = Some b -> a <= b)
  /\ (forall b c, latest_1 r = Some b -> latest_2 r = Some c -> b <= c).
Proof.
  split.
  - intros a b Ha Hb. pose proof resolved_latest_1 as H1. rewrite Hb in H1.
    destruct H1 as [Hocc _]. apply occurs_later in Hocc.
    change (latest_0 r) with (latest_0 (classify e)) in Ha.
    rewrite latest_0_classify in Ha. destruct (String.eqb _ _); [|discriminate].
    injection Ha as <-. exact Hocc.
  - intros b c Hb Hc. pose proof resolved_latest_2 as H2. rewrite Hc in H2.
    destruct H2 as [[_ Hfrom] _]. now apply Hfrom.
Qed.

End WindowResolver.

Lemma rev_fmap {A B} (f : A -> B) l : List.rev (f <$> l) = f <$> List.rev l.
Proof.
  induction l as [|x l IH]; [reflexivity|].
  rewrite fmap_cons. cbn [List.rev]. now rewrite IH, fmap_app.
Qed.

Lemma window_rows_classify evs :
  window_rows (classify <$> evs) = classify <$> window_events evs.
Proof.
  unfold window_rows, window_events. rewrite order_by_desc_fmap. apply rev_fmap.
Qed.

Lemma window_events_In evs e : In e (window_events evs) <-> In e evs.
Proof.
  unfold window_events. rewrite <- in_rev. apply order_by_desc_In.
Qed.

Lemma windowed_In df dt evs e :
  In e (windowed df dt evs) <-> In e (fetched df dt evs).
Proof. apply window_events_In. Qed.

Lemma window_events_sorted evs : sorted_per_actor (window_events evs).
Proof.
  pose proof (rev_order_by_desc_sorted e_timestamp evs) as H.
  unfold sorted_per_actor, window_events.
  induction H as [|x l Hl IH Hx]; constructor; [exact IH|].
  eapply Forall_impl; [exact Hx|]. intros y Hy _. exact Hy.
Qed.

(** The window puts behind an event exactly its frame. *)
Lemma window_events_split pre e post :
  exists before after,
    window_events (pre ++ e :: post) = before ++ e :: after
    /\ forall x, In x (e :: after) <-> In x (window_frame pre e post).
Proof.
  destruct (order_by_desc_split e_timestamp pre e post) as (hi & lo & E & Hin).
  exists (List.rev lo), (List.rev hi). unfold window_events. rewrite E.
  split.
  - rewrite rev_app_distr. cbn [List.rev]. now rewrite <- app_assoc.
  - intros x. unfold window_frame. cbn [In]. rewrite <- in_rev, Hin, in_app_iff.
    rewrite !filter_In, Z.leb_le, Z.ltb_lt. tauto.
Qed.

Lemma resolved_rows_In q events r :
  In r (resolved_rows q events) ->
  exists before e after,
    windowed (date_from q) (date_to q) events = before ++ e :: after
    /\ r = resolved_row (classify e) (classify <$> after).
Proof.
  unfold resolved_rows, window_resolve, windowed.
  rewrite step_rows_classify, window_rows_classify. intros Hin.
  apply resolve_In in Hin. destruct Hin as (pre & x & later & Hsplit & ->).
  apply fmap_app_inv in Hsplit. destruct Hsplit as (before & rest & -> & Hrest & Hf).
  symmetry in Hrest. apply fmap_cons_inv in Hrest.
  destruct Hrest as (e & after & -> & -> & ->).
  now exists before, e, after.
Qed.

Lemma resolved_rows_lookup q events before e after :
  windowed (date_from q) (date_to q) events = before ++ e :: after ->
  resolved_rows q events !! length before
  = Some (resolved_row (classify e) (classify <$> after)).
Proof.
  intros Hsplit. unfold resolved_rows, window_resolve.
  rewrite step_rows_classify, window_rows_classify.
  unfold windowed in Hsplit. rewrite Hsplit, fmap_app, fmap_cons.
  rewrite <- (length_fmap classify before). apply resolve_lookup.
Qed.

Lemma sorted_suffix df dt events before e after :
  windowed df dt events = before ++ e :: after ->
  sorted_per_actor (e :: after).
Proof.
  intros Hf. apply (StronglySorted_app_1_r _ before). rewrite <- Hf.
  apply window_events_sorted.
Qed.

Section DepthEvaluator.

Variable W : Z.

Lemma steps_of_range r : 1 <= steps_of W r <= 3.
Proof. unfold steps_of. repeat destruct (_ && _); lia. Qed.


Lemma steps_of_no_step_1 r : latest_1 r = None -> steps_of W r = 1.
Proof. unfold steps_of. intros ->. now destruct (latest_0 r). Qed.

Lemma conversion_time_1 r d :
  step_1_conversion_time_of W r = Some d <->
  exists a b, latest_0 r = Some a /\ latest_1 r = Some b /\ b <= a + W
              /\ dateDiff_second (Some a) (Some b) = Some d.
Proof.
  unfold step_1_conversion_time_of.
  destruct (latest_0 r) as [a|], (latest_1 r) as [b|]; cbn;
    try (split; [discriminate | now intros (? & ? & ? & ? & _)]).
  destruct (Z.leb_spec b (a + W)); split.
  - intros Hd. exists a, b. auto.
  - now intros (? & ? & [= <-] & [= <-] & _ & ?).
  - discriminate.
  - intros (? & ? & [= <-] & [= <-] & ? & _). lia.
Qed.

Lemma conversion_time_2 r d :
  step_2_conversion_time_of W r = Some d <->
  exists a b, latest_1 r = Some a /\ latest_2 r = Some b /\ b <= a + W
              /\ dateDiff_second (Some a) (Some b) = Some d.
Proof.
  unfold step_2_conversion_time_of.
  destruct (latest_1 r) as [a|], (latest_2 r) as [b|]; cbn;
    try (split; [discriminate | now intros (? & ? & ? & ? & _)]).
  destruct (Z.leb_spec b (a + W)); split.
  - intros Hd. exists a, b. auto.
  - now intros (? & ? & [= <-] & [= <-] & _ & ?).
  - discriminate.
  - intros (? & ? & [= <-] & [= <-] & ? & _). lia.
Qed.

Lemma evaluate_In x rows :
  In x (evaluate W rows) <->
  exists r, In r rows /\ flag_set (step_0 r) = true /\ x = evaluate_row W r.
Proof.
  unfold evaluate. rewrite in_map_iff. split.
  - intros (r & <- & Hr). apply filter_In in Hr. exists r. tauto.
  - intros (r & Hr & Hf & ->). exists r. split; [reflexivity|].
    apply filter_In. tauto.
Qed.

End DepthEvaluator.

Lemma dateDiff_second_elapsed a b d :
  dateDiff_second (Some a) (Some b) = Some d ->
  (d - 1) * microseconds_per_second < b - a < (d + 1) * microseconds_per_second
  /\ (a mod microseconds_per_second = 0 -> b mod microseconds_per_second = 0 ->
      d * microseconds_per_second = b - a).
Proof.
  unfold dateDiff_second, microseconds_per_second. intros [= <-].
  pose proof (Z.div_mod a 1000000 ltac:(lia)).
  pose proof (Z.div_mod b 1000000 ltac:(lia)).
  pose proof (Z.mod_pos_bound a 1000000 ltac:(lia)).
  pose proof (Z.mod_pos_bound b 1000000 ltac:(lia)).
  split; [lia|]. intros Ha Hb. lia.
Qed.

Lemma entrance_In q events x :
  In x (evaluated_entrances q events) ->
  exists before e after,
    windowed (date_from q) (date_to q) events = before ++ e :: after
    /\ e_event e = step_name 0
    /\ x = evaluate_row (window q) (resolved_row (classify e) (classify <$> after)).
Proof.
  unfold evaluated_entrances. intros Hx. apply evaluate_In in Hx.
  destruct Hx as (r & Hr & Hf & ->). apply resolved_rows_In in Hr.
  destruct Hr as (before & e & after & Hsplit & ->).
  exists before, e, after. repeat split; [exact Hsplit|].
  change (step_0 (resolved_row (classify e) (classify <$> after)))
    with (step_0 (classify e)) in Hf.
  rewrite step_0_classify in Hf. now apply String.eqb_eq in Hf.
Qed.

Section EntranceAggregator.

Lemma is_max_of_unique s s' l : is_max_of s l -> is_max_of s' l -> s = s'.
Proof. intros [Hs Hle] [Hs' Hle']. specialize (Hle _ Hs'). specialize (Hle' _ Hs). lia. Qed.

Lemma is_max_of_cons x s l :
  is_max_of s l -> is_max_of (Z.max s x) (x :: l).
Proof.
  intros [Hs Hle]. split.
  - destruct (Z.max_spec s x) as [[_ ->]|[_ ->]]; cbn; auto.
  - intros y [<-|Hy]; [lia|]. specialize (Hle y Hy). lia.
Qed.

Lemma group_max_spec rows k :
  match group_max rows !! k with
  | Some s => is_max_of s (entrance_depths (fst k) (snd k) rows)
  | None => entrance_depths (fst k) (snd k) rows = []
  end.
Proof.
  destruct k as [a p]. cbn [fst snd]. unfold entrance_depths.
  induction rows as [|r rows IH].
  { unfold group_max. cbn [foldr]. now rewrite lookup_empty. }
  unfold group_max. cbn [foldr List.filter]. fold (group_max rows).
  unfold add_to_group.
  destruct (decide (group_key r = (a, p))) as [E|E].
  - rewrite E, lookup_insert_eq, bool_decide_eq_true_2 by reflexivity.
    rewrite fmap_cons.
    destruct (group_max rows !! (a, p)) as [best|].
    + now apply is_max_of_cons.
    + rewrite IH. split; [now left|]. intros x [<-|[]]. lia.
  - rewrite lookup_insert_ne, bool_decide_eq_false_2 by assumption. exact IH.
Qed.

Lemma group_max_lookup rows a p s :
  group_max rows !! (a, p) = Some s <-> is_max_of s (entrance_depths a p rows).
Proof.
  pose proof (group_max_spec rows (a, p)) as H. cbn [fst snd] in H. split.
  - intros E. now rewrite E in H.
  - intros Hs. destruct (group_max rows !! (a, p)) as [s'|].
    + f_equal. eapply is_max_of_unique; eassumption.
    + destruct Hs as [Hs _]. rewrite H in Hs. destruct Hs.
Qed.

Lemma cohort_rows_In (groups : gmap (Z * Z) Z) c :
  In c (cohort_rows groups) <-> groups !! cohort_key c = Some (steps_completed c).
Proof.
  unfold cohort_rows. rewrite <- list_elem_of_In, list_elem_of_fmap. split.
  - intros ([[a p] s] & -> & Hin). now apply elem_of_map_to_list in Hin.
  - intros H. exists (cohort_key c, steps_completed c). split; [now destruct c|].
    now apply elem_of_map_to_list.
Qed.

Lemma cohort_rows_NoDup (groups : gmap (Z * Z) Z) :
  NoDup (cohort_key <$> cohort_rows groups).
Proof.
  unfold cohort_rows. rewrite <- list_fmap_compose.
  rewrite (list_fmap_ext _ fst); [apply NoDup_fst_map_to_list|].
  now intros _ [[a p] s] _.
Qed.

Lemma entrance_depths_in_period period a p rows :
  entrance_depths a p (List.filter (in_period period) rows)
  = if decide (p = period) then entrance_depths a p rows else [].
Proof.
  unfold entrance_depths. induction rows as [|r rows IH]; [now destruct (decide _)|].
  cbn [List.filter]. unfold in_period at 1. cbn [equals ifNull].
  destruct (Z.eqb_spec (period_of r) period) as [E|E]; cbn [List.filter].
  - destruct (bool_decide_reflect (group_key r = (a, p))) as [K|K]; [|exact IH].
    injection K as _ K. rewrite E in K. subst p.
    rewrite decide_True in * by reflexivity. now rewrite !fmap_cons, IH.
  - rewrite IH. destruct (decide (p = period)) as [->|]; [|reflexivity].
    rewrite bool_decide_eq_false_2; [reflexivity|].
    unfold group_key. intros [= _ ?]. contradiction.
Qed.

Lemma entrance_cohorts_In period rows c :
  In c (entrance_cohorts period rows) <->
  entrance_period_start c = period
  /\ is_max_of (steps_completed c) (entrance_depths (actor c) period rows).
Proof.
  unfold entrance_cohorts. rewrite cohort_rows_In. unfold cohort_key.
  rewrite group_max_lookup, entrance_depths_in_period.
  destruct (decide (entrance_period_start c = period)) as [->|Hne].
  - tauto.
  - split; [intros [[] _] | tauto].
Qed.

(** Filtering on the period before or after grouping gives the same rows. *)
Lemma entrance_cohorts_filter period rows c :
  In c (entrance_cohorts period rows) <->
  In c (cohort_rows (group_max rows)) /\ entrance_period_start c = period.
Proof.
  rewrite entrance_cohorts_In, cohort_rows_In. unfold cohort_key.
  rewrite group_max_lookup. split.
  - now intros [<- ?].
  - now intros [? <-].
Qed.

Lemma entrance_depths_In a p rows s :
  In s (entrance_depths a p rows) <->
  exists r, In r rows /\ aggregation_target (base r) = a /\ period_of r = p
            /\ steps r = s.
Proof.
  unfold entrance_depths. rewrite in_map_iff. split.
  - intros (r & <- & Hr). apply filter_In in Hr. destruct Hr as [Hr Hk].
    apply bool_decide_eq_true in Hk. injection Hk as <- <-. now exists r.
  - intros (r & Hr & <- & <- & <-). exists r. split; [reflexivity|].
    apply filter_In. split; [assumption|]. now apply bool_decide_eq_true.
Qed.

End EntranceAggregator.

#[local] Instance newest_first_dec : RelDecision newest_first.
Proof. intros p p'. unfold newest_first. apply _. Defined.

#[local] Instance newest_first_trans : Transitive newest_first.
Proof. intros p1 p2 p3. unfold newest_first. lia. Qed.

#[local] Instance newest_first_total : Total newest_first.
Proof. intros p1 p2. unfold newest_first. lia. Qed.

Section TrendSelector.

Lemma depth_holds_spec d c :
  depth_holds d c = true <-> depth_spec d (steps_completed c).
Proof.
  destruct d as [k|lo hi]; cbn.
  - now rewrite Z.leb_le.
  - rewrite andb_true_iff, Z.leb_le, Z.ltb_lt. tauto.
Qed.

Lemma cohorts_period q events c :
  In c (cohorts q events) -> entrance_period_start c = entrance_period q.
Proof. unfold cohorts. rewrite entrance_cohorts_In. tauto. Qed.

Lemma source_In q events a :
  In a (source q events) <->
  exists c, In c (cohorts q events) /\ actor c = a
            /\ depth_spec (depth q) (steps_completed c).
Proof.
  unfold source. rewrite <- list_elem_of_In, merge_sort_Permutation, list_elem_of_In.
  rewrite in_map_iff. split.
  - intros (c & <- & Hc). apply filter_In in Hc. destruct Hc as [Hc Hd].
    exists c. rewrite <- depth_holds_spec. auto.
  - intros (c & Hc & <- & Hd). exists c. split; [reflexivity|].
    apply filter_In. rewrite depth_holds_spec. auto.
Qed.

Lemma NoDup_fmap_filter {A B} (f : A -> B) (p : A -> bool) l :
  NoDup (f <$> l) -> NoDup (f <$> List.filter p l).
Proof.
  induction l as [|x l IH]; [auto|].
  rewrite fmap_cons. intros H. apply NoDup_cons in H. destruct H as [Hx Hl].
  cbn [List.filter]. destruct (p x); [|auto].
  rewrite fmap_cons. apply NoDup_cons. split; [|auto].
  intros Hin. apply Hx. apply list_elem_of_fmap in Hin.
  destruct Hin as (y & -> & Hy). apply list_elem_of_fmap. exists y.
  split; [reflexivity|]. apply list_elem_of_In. apply list_elem_of_In in Hy.
  apply filter_In in Hy. tauto.
Qed.

Lemma source_NoDup q events : NoDup (source q events).
Proof.
  unfold source. rewrite merge_sort_Permutation.
  apply (NoDup_fmap_1 (fun a => (a, entrance_period q))).
  rewrite <- list_fmap_compose.
  rewrite (list_fmap_ext _ cohort_key).
  - apply NoDup_fmap_filter. unfold cohorts, entrance_cohorts.
    apply cohort_rows_NoDup.
  - intros i c Hc. cbn. unfold cohort_key. f_equal. symmetry.
    apply (cohorts_period q events).
    apply list_elem_of_lookup_2 in Hc. apply list_elem_of_In in Hc.
    apply filter_In in Hc. tauto.
Qed.

Lemma inner_join_In persons actors p :
  In p (inner_join persons actors) <-> In p persons /\ In (id p) actors.
Proof.
  unfold inner_join. rewrite <- list_elem_of_In, list_elem_of_bind. split.
  - intros (p' & Hp & Hp'). apply list_elem_of_In in Hp, Hp'.
    apply in_map_iff in Hp. destruct Hp as (a & -> & Ha).
    apply filter_In in Ha. destruct Ha as [Ha E]. apply Z.eqb_eq in E.
    rewrite E. auto.
  - intros [Hp Ha]. exists p. split; apply list_elem_of_In; [|assumption].
    apply in_map_iff. exists (id p). split; [reflexivity|].
    apply filter_In. split; [assumption|]. apply Z.eqb_refl.
Qed.

(** The outer select has an answer for every input. *)
Lemma query_result_exists q persons events :
  exists out, query_result q persons events out.
Proof.
  eexists. exists (merge_sort newest_first (inner_join persons (source q events))).
  split; [split|reflexivity].
  - apply merge_sort_Permutation.
  - apply StronglySorted_merge_sort; apply _.
Qed.

End TrendSelector.

Lemma actor_A_sorted : sorted_per_actor actor_A_events.
Proof. concrete_order. Defined.

Lemma actor_A_evaluated :
  evaluated_entrances returns_recordings actor_A_events = [actor_A_entrance].
Proof. vm_compute. reflexivity. Defined.

(** * Main theorems *)



(** C2, as stated, fails twice.  A person who enters and later does step
    three but never step two has [latest_1] absent and [latest_2] set; and
    a step-two event with the entrance's own timestamp that is read after
    the entrance is not taken as [latest_1]. *)
Lemma latest_differs_from_next_occurrence :
  (sorted_per_actor skipping_events
   /\ exists r,
        In r (resolved_rows returns_recordings skipping_events)
        /\ flag_set (step_0 r) = true
        /\ latest r 1 = None
        /\ latest r 2 = Some (may_1_2021 + toIntervalDay 1)
        /\ ~ next_occurrence 2 7 skipping_events (latest r 1) (latest r 2))
  /\ (sorted_per_actor tied_events
      /\ exists r,
           In r (resolved_rows returns_recordings tied_events)
           /\ flag_set (step_0 r) = true
           /\ latest r 0 = Some may_1_2021
           /\ latest r 1 = None
           /\ ~ next_occurrence 1 8 tied_events (latest r 0) (latest r 1)).
Proof.
  split; (split; [concrete_order|]).
  - exists (mkRow 7 1619827200000000 1 (Some 1619827200000000) 0 None 0
              (Some 1619913600000000)).
    split; [vm_compute; left; reflexivity|].
    split; [reflexivity|]. split; [reflexivity|]. split; [reflexivity|].
    cbn. intros [[_ (a & Ha & _)] _]. discriminate.
  - exists (mkRow 8 1619827200000000 1 (Some 1619827200000000) 0 None 0 None).
    split; [vm_compute; right; left; reflexivity|].
    split; [reflexivity|]. split; [reflexivity|]. split; [reflexivity|].
    cbn. intros H. apply (H 1619827200000000). split.
    + exists (mkEvent may_1_2021 8 "step two").
      split; [right; left; reflexivity|]. now repeat split.
    + exists 1619827200000000. split; [reflexivity | lia].
Qed.

Lemma occurs_ext i who l l' t :
  (forall x, In x l <-> In x l') -> occurs i who l t -> occurs i who l' t.
Proof. intros H (x & Hx & Hrest). exists x. split; [now apply H | exact Hrest]. Qed.

(** C2, amended.  For an entrance [e] read after [pre] and before [post],
    the candidates are the events the window orders at or before it: [e],
    the events of a later timestamp, and the events of its own timestamp
    read before it.  [latest[0]] is the entrance timestamp, [latest[1]] is
    the smallest timestamp among the actor's step-1 candidates, and
    [latest[2]] the smallest among the actor's step-2 candidates that are
    not before [latest[1]] when that is present (all of them when it is
    absent); each is absent when there is no such event.  When no event of
    the actor read after the entrance shares its timestamp, [latest[1]] is
    the smallest step-1 timestamp at or after [latest[0]] among all the
    actor's events, and so is [latest[2]] with respect to a present
    [latest[1]]. *)
Theorem latest_is_earliest_occurrence_in_frame q events pre e post :
  fetched (date_from q) (date_to q) events = pre ++ e :: post ->
  e_event e = step_name 0 ->
  exists r,
    In r (resolved_rows q events)
    /\ flag_set (step_0 r) = true
    /\ aggregation_target r = e_person_id e
    /\ timestamp r = e_timestamp e
    /\ latest r 0 = Some (e_timestamp e)
    /\ resolved_occurrence 1 (e_person_id e) (window_frame pre e post)
         (latest r 0) (latest r 1)
    /\ resolved_occurrence 2 (e_person_id e) (window_frame pre e post)
         (latest r 1) (latest r 2)
    /\ ((forall x, In x post -> e_person_id x = e_person_id e ->
                   e_timestamp x <> e_timestamp e) ->
        next_occurrence 1 (e_person_id e) (pre ++ e :: post) (latest r 0) (latest r 1)
        /\ (latest r 1 <> None ->
            next_occurrence 2 (e_person_id e) (pre ++ e :: post)
              (latest r 1) (latest r 2))).
Proof.
  intros Hsplit He.
  destruct (window_events_split pre e post) as (before & after & Hw & Hfr).
  assert (Hwin : windowed (date_from q) (date_to q) events = before ++ e :: after).
  { unfold windowed. now rewrite Hsplit. }
  assert (Hsuf : sorted_per_actor (e :: after)).
  { apply (StronglySorted_app_1_r _ before). rewrite <- Hw.
    apply window_events_sorted. }
  change (step_name 0) with "step one" in He.
  set (r := resolved_row (classify e) (classify <$> after)).
  assert (H0 : latest_0 (classify e) = Some (e_timestamp e)).
  { now rewrite latest_0_classify, He. }
  assert (H1 : resolved_occurrence 1 (e_person_id e) (window_frame pre e post)
                 (latest r 0) (latest r 1)).
  { unfold resolved_occurrence. eapply smallest_iff; [|apply resolved_latest_1].
    intros t. split.
    - intros Hocc. split; [now apply (occurs_ext _ _ _ _ _ Hfr)|].
      intros a Ha. change (latest_0 (classify e) = Some a) in Ha.
      rewrite H0 in Ha. injection Ha as <-.
      now apply (occurs_later e after Hsuf 1).
    - intros [Hocc _]. apply (occurs_ext _ _ _ (e :: after) _) in Hocc; [exact Hocc|].
      intros x. symmetry. apply Hfr. }
  assert (H2 : resolved_occurrence 2 (e_person_id e) (window_frame pre e post)
                 (latest r 1) (latest r 2)).
  { unfold resolved_occurrence. eapply smallest_iff; [|apply (resolved_latest_2 e after Hsuf)].
    intros t. split; intros [Hocc Hfrom]; (split; [|exact Hfrom]).
    - now apply (occurs_ext _ _ _ _ _ Hfr).
    - apply (occurs_ext _ _ _ (e :: after) _) in Hocc; [exact Hocc|].
      intros x. symmetry. apply Hfr. }
  exists r. split.
  { apply list_elem_of_In. eapply list_elem_of_lookup_2.
    apply (resolved_rows_lookup q events before e after Hwin). }
  split; [cbn [r resolved_row step_0]; now rewrite step_0_classify, He|].
  split; [reflexivity|]. split; [reflexivity|]. split; [exact H0|].
  split; [exact H1|]. split; [exact H2|].
  intros Hties.
  assert (Hall : forall i a t, e_timestamp e <= a ->
            (occurs i (e_person_id e) (window_frame pre e post) t /\ from (Some a) t
             <-> occurs i (e_person_id e) (pre ++ e :: post) t /\ at_or_after (Some a) t)).
  { intros i a t Ha. split.
    - intros [(x & Hx & Hp & Hn & Ht) Hfrom]. split.
      + exists x. split; [|auto]. unfold window_frame in Hx.
        destruct Hx as [<-|Hx]; [apply in_or_app; right; now left|].
        apply in_app_iff in Hx. rewrite !filter_In in Hx.
        apply in_or_app. destruct Hx as [[Hx _]|[Hx _]]; [now left | right; now right].
      + exists a. split; [reflexivity | now apply Hfrom].
    - intros [(x & Hx & Hp & Hn & Ht) (a' & [= <-] & Hle)]. split.
      + exists x. split; [|auto]. unfold window_frame. cbn [In].
        rewrite in_app_iff, !filter_In, Z.leb_le, Z.ltb_lt.
        apply in_app_iff in Hx. destruct Hx as [Hx|[<-|Hx]]; [right; left | now left | right; right].
        * split; [exact Hx | lia].
        * split; [exact Hx|]. specialize (Hties x Hx Hp). lia.
      + intros ? [= <-]. exact Hle. }
  split.
  - unfold next_occurrence. eapply smallest_iff; [|exact H1].
    intros t. change (latest r 0) with (latest_0 (classify e)). rewrite H0.
    apply Hall. lia.
  - intros Hpresent. destruct (latest r 1) as [b|] eqn:E1; [|congruence].
    unfold next_occurrence. eapply smallest_iff; [|exact H2].
    intros t. apply Hall.
    destruct (resolved_chain e after Hsuf) as [H01 _]. now apply (H01 _ b H0).
Qed.

Lemma latest_is_earliest_occurrence_in_frame_witness :
  exists r,
    In r (resolved_rows returns_recordings actor_A_events)
    /\ flag_set (step_0 r) = true
    /\ aggregation_target r = 1
    /\ timestamp r = may_1_2021
    /\ latest r 0 = Some may_1_2021
    /\ resolved_occurrence 1 1
         (window_frame [] (mkEvent may_1_2021 1 "step one")
            [ mkEvent (may_1_2021 + toIntervalDay 1) 1 "step two";
              mkEvent (may_1_2021 + toIntervalDay 2) 1 "step three" ])
         (latest r 0) (latest r 1)
    /\ resolved_occurrence 2 1
         (window_frame [] (mkEvent may_1_2021 1 "step one")
            [ mkEvent (may_1_2021 + toIntervalDay 1) 1 "step two";
              mkEvent (may_1_2021 + toIntervalDay 2) 1 "step three" ])
         (latest r 1) (latest r 2)
    /\ ((forall x,
           In x [ mkEvent (may_1_2021 + toIntervalDay 1) 1 "step two";
                  mkEvent (may_1_2021 + toIntervalDay 2) 1 "step three" ] ->
           e_person_id x = 1 -> e_timestamp x <> may_1_2021) ->
        next_occurrence 1 1 actor_A_events (latest r 0) (latest r 1)
        /\ (latest r 1 <> None ->
            next_occurrence 2 1 actor_A_events (latest r 1) (latest r 2))).
Proof.
  apply (latest_is_earliest_occurrence_in_frame returns_recordings
           actor_A_events [] (mkEvent may_1_2021 1 "step one")
           [ mkEvent (may_1_2021 + toIntervalDay 1) 1 "step two";
             mkEvent (may_1_2021 + toIntervalDay 2) 1 "step three" ]).
  - vm_compute. reflexivity.
  - reflexivity.
Defined.



Lemma interleaved_evaluated :
  evaluated_entrances with_drop_off interleaved_events = [interleaved_entrance].
Proof. vm_compute. reflexivity. Defined.

(** C8, as stated, fails: an entrance row with [latest[1]] absent and
    [latest[2]] present. *)
Lemma absent_latest_1_with_present_latest_2 :
  sorted_per_actor interleaved_events
  /\ exists r,
       resolved_rows with_drop_off interleaved_events !! 0%nat = Some r
       /\ flag_set (step_0 r) = true
       /\ latest r 1 = None
       /\ ~ (forall j, 1 < j -> latest r j = None).
Proof.
  split; [concrete_order|].
  eexists. split; [vm_compute; reflexivity|].
  split; [reflexivity|]. split; [reflexivity|].
  intros H. specialize (H 2 ltac:(lia)). discriminate.
Qed.

(** C8, amended.  When [latest[1]] is absent for an entrance, a stored
    [latest[2]] is left out of account: the depth is 1 and no per-step
    duration is populated. *)
Theorem absent_latest_1_gives_depth_1 q events x :
  In x (evaluated_entrances q events) ->
  latest (base x) 1 = None ->
  steps x = 1 /\ forall i, per_step_duration x i = None.
Proof.
  intros Hx H1. unfold evaluated_entrances in Hx. apply evaluate_In in Hx.
  destruct Hx as (r & _ & _ & ->). cbn in H1. unfold evaluate_row.
  split; [now apply steps_of_no_step_1|].
  intros i. unfold per_step_duration.
  cbn [step_1_conversion_time step_2_conversion_time].
  unfold step_1_conversion_time_of, step_2_conversion_time_of. rewrite H1. cbn.
  now destruct (latest_2 r), (i =? 1), (i =? 2).
Qed.

Lemma absent_latest_1_gives_depth_1_witness :
  steps interleaved_entrance = 1
  /\ forall i, per_step_duration interleaved_entrance i = None.
Proof.
  apply (absent_latest_1_gives_depth_1 with_drop_off interleaved_events).
  - rewrite interleaved_evaluated. left. reflexivity.
  - reflexivity.
Defined.

(** C3, as stated, fails: an entrance 0.9 s after midnight followed 0.2 s
    later by step two has a step-1 duration of 1 second, which is neither
    the elapsed time nor its whole seconds. *)
Lemma duration_is_not_the_elapsed_time :
  exists x a b,
    In x (evaluated_entrances returns_recordings sub_second_events)
    /\ latest (base x) 0 = Some a /\ latest (base x) 1 = Some b
    /\ b - a = 200000
    /\ per_step_duration x 1 = Some 1
    /\ 1 * microseconds_per_second <> b - a
    /\ 1 <> (b - a) / microseconds_per_second.
Proof.
  eexists _, _, _. split; [vm_compute; left; reflexivity|].
  split; [reflexivity|]. split; [reflexivity|].
  split; [reflexivity|]. split; [reflexivity|].
  split; vm_compute; discriminate.
Qed.

(** C3, amended.  For every entrance candidate and step [i],
    [per_step_duration[i]] is populated exactly when [latest[i-1]] and
    [latest[i]] are present and [latest[i] <= latest[i-1] + W]; its value is
    the number of second boundaries from [latest[i-1]] to [latest[i]], as
    [dateDiff('second', ...)] counts them: less than one second away from
    the elapsed time, and equal to it when both timestamps are whole
    seconds. *)
Theorem per_step_duration_anchored_at_previous_step q events x i d :
  In x (evaluated_entrances q events) ->
  per_step_duration x i = Some d <->
  exists a b,
    latest (base x) (i - 1) = Some a /\ latest (base x) i = Some b
    /\ b <= a + window q
    /\ dateDiff_second (Some a) (Some b) = Some d
    /\ (d - 1) * microseconds_per_second < b - a < (d + 1) * microseconds_per_second
    /\ (a mod microseconds_per_second = 0 -> b mod microseconds_per_second = 0 ->
        d * microseconds_per_second = b - a).
Proof.
  intros Hx. unfold evaluated_entrances in Hx. apply evaluate_In in Hx.
  destruct Hx as (r & _ & _ & ->).
  assert (Hel : forall a b, dateDiff_second (Some a) (Some b) = Some d ->
    (d - 1) * microseconds_per_second < b - a < (d + 1) * microseconds_per_second
    /\ (a mod microseconds_per_second = 0 -> b mod microseconds_per_second = 0 ->
        d * microseconds_per_second = b - a)).
  { intros a b H. now apply dateDiff_second_elapsed. }
  destruct (Z.eq_dec i 1) as [->|N1].
  { change (per_step_duration (evaluate_row (window q) r) 1)
      with (step_1_conversion_time_of (window q) r).
    change (latest (base (evaluate_row (window q) r)) (1 - 1)) with (latest_0 r).
    change (latest (base (evaluate_row (window q) r)) 1) with (latest_1 r).
    rewrite conversion_time_1. split.
    - intros (a & b & Ha & Hb & Hw & Hd). exists a, b.
      destruct (Hel a b Hd) as [E2 E3].
      exact (conj Ha (conj Hb (conj Hw (conj Hd (conj E2 E3))))).
    - intros (a & b & Ha & Hb & Hw & Hd & _). exists a, b. auto. }
  destruct (Z.eq_dec i 2) as [->|N2].
  { change (per_step_duration (evaluate_row (window q) r) 2)
      with (step_2_conversion_time_of (window q) r).
    change (latest (base (evaluate_row (window q) r)) (2 - 1)) with (latest_1 r).
    change (latest (base (evaluate_row (window q) r)) 2) with (latest_2 r).
    rewrite conversion_time_2. split.
    - intros (a & b & Ha & Hb & Hw & Hd). exists a, b.
      destruct (Hel a b Hd) as [E2 E3].
      exact (conj Ha (conj Hb (conj Hw (conj Hd (conj E2 E3))))).
    - intros (a & b & Ha & Hb & Hw & Hd & _). exists a, b. auto. }
  unfold per_step_duration, latest.
  rewrite (proj2 (Z.eqb_neq i 1) N1), (proj2 (Z.eqb_neq i 2) N2).
  split; [discriminate|]. intros (a & b & Ha & Hb & _).
  destruct (Z.eqb_spec i 0) as [->|]; [|discriminate].
  change (0 - 1 =? 0) with false in Ha. change (0 - 1 =? 1) with false in Ha.
  change (0 - 1 =? 2) with false in Ha. discriminate.
Qed.

Lemma per_step_duration_anchored_at_previous_step_witness :
  per_step_duration actor_A_entrance 2 = Some 86400 <->
  exists a b,
    latest (base actor_A_entrance) (2 - 1) = Some a
    /\ latest (base actor_A_entrance) 2 = Some b
    /\ b <= a + window returns_recordings
    /\ dateDiff_second (Some a) (Some b) = Some 86400
    /\ (86400 - 1) * microseconds_per_second < b - a
       < (86400 + 1) * microseconds_per_second
    /\ (a mod microseconds_per_second = 0 -> b mod microseconds_per_second = 0 ->
        86400 * microseconds_per_second = b - a).
Proof.
  apply (per_step_duration_anchored_at_previous_step returns_recordings actor_A_events).
  rewrite actor_A_evaluated. left. reflexivity.
Defined.

(** C7. Widening the conversion window never lowers the depth of an
    entrance: with the resolved rows fixed and [W <= W'], every entrance
    evaluated with [W'] has at least the depth it has with [W]. *)
Theorem steps_monotone_in_window W W' rows :
  W <= W' ->
  Forall2 (fun x x' => base x = base x' /\ steps x <= steps x')
          (evaluate W rows) (evaluate W' rows).
Proof.
  intros HW. unfold evaluate.
  induction (List.filter (fun r => flag_set (step_0 r)) rows) as [|r l IH];
    [constructor|].
  rewrite !fmap_cons. constructor; [|exact IH].
  split; [reflexivity|]. cbn [steps evaluate_row]. unfold steps_of.
  destruct (latest_0 r) as [a|], (latest_1 r) as [b|], (latest_2 r) as [c|]; cbn;
    try lia;
    repeat match goal with
           | |- context [Z.leb ?u ?v] => destruct (Z.leb_spec u v)
           end; cbn; lia.
Qed.

Lemma steps_monotone_in_window_witness :
  Forall2 (fun x x' => base x = base x' /\ steps x <= steps x')
          (evaluate (toIntervalDay 1) (resolved_rows returns_recordings actor_A_events))
          (evaluate (toIntervalDay 14) (resolved_rows returns_recordings actor_A_events)).
Proof.
  apply (steps_monotone_in_window (toIntervalDay 1) (toIntervalDay 14)).
  vm_compute. discriminate.
Defined.

(** C10. There is an entrance of a three-step funnel whose step-2 duration
    is populated although its depth is 2: [latest[2]] is within the window
    of [latest[1]] but not of [latest[0]]. *)
Theorem duration_shown_for_uncounted_step :
  exists x l0 l1 l2 d,
    sorted_per_actor slow_events
    /\ window may_query = toIntervalDay 14
    /\ In x (evaluated_entrances may_query slow_events)
    /\ latest (base x) 0 = Some l0 /\ latest (base x) 1 = Some l1
    /\ latest (base x) 2 = Some l2
    /\ l2 <= l1 + window may_query /\ l0 + window may_query < l2
    /\ steps x = 2
    /\ per_step_duration x 2 = Some d.
Proof.
  eexists _, _, _, _, _.
  split; [concrete_order|].
  split; [reflexivity|].
  split; [vm_compute; left; reflexivity|].
  repeat split; try (vm_compute; reflexivity); vm_compute; discriminate.
Qed.

Lemma entrance_cohorts_cover period rows x :
  In x rows -> period_of x = period ->
  exists c, In c (entrance_cohorts period rows)
            /\ actor c = aggregation_target (base x)
            /\ steps x <= steps_completed c.
Proof.
  intros Hx Hp. set (a := aggregation_target (base x)).
  assert (Hin : In (steps x) (entrance_depths a period rows)).
  { apply entrance_depths_In. now exists x. }
  pose proof (group_max_spec (List.filter (in_period period) rows) (a, period)) as H.
  cbn [fst snd] in H. rewrite entrance_depths_in_period, decide_True in H by reflexivity.
  destruct (group_max (List.filter (in_period period) rows) !! (a, period))
    as [s|] eqn:E.
  - exists (mkCohort a period s). split; [|split; [reflexivity|]].
    + unfold entrance_cohorts. now apply cohort_rows_In.
    + destruct H as [_ Hle]. now apply Hle.
  - rewrite H in Hin. destruct Hin.
Qed.

Lemma toStartOfDay_unwrapped t :
  in_DateTime_days t ->
  toStartOfDay t = t / microseconds_per_day * microseconds_per_day.
Proof.
  unfold in_DateTime_days, toStartOfDay, microseconds_per_day, seconds_per_day,
    microseconds_per_second.
  intros [H0 H1].
  assert (0 <= t / (86400 * 1000000) < 49711).
  { split; [apply Z.div_pos; lia | apply Z.div_lt_upper_bound; lia]. }
  rewrite Z.mod_small; [lia|]. change (2 ^ 32) with 4294967296. lia.
Qed.

Lemma toStartOfDay_is_DateTime t : is_DateTime (toStartOfDay t).
Proof.
  unfold is_DateTime, toStartOfDay. split.
  - apply Z.mod_mul. unfold microseconds_per_second. lia.
  - pose proof (Z.mod_pos_bound (t / microseconds_per_day * seconds_per_day) (2 ^ 32)
                  ltac:(lia)).
    unfold microseconds_per_second. nia.
Qed.

Lemma day_start_of_iff t p :
  t / microseconds_per_day * microseconds_per_day = p <-> day_start_of t p.
Proof.
  unfold day_start_of, microseconds_per_day, microseconds_per_second.
  change (86400 * 1000000) with 86400000000.
  split.
  - intros <-. split; [apply Z.mod_mul; lia|].
    pose proof (Z.mul_div_le t 86400000000 ltac:(lia)).
    pose proof (Z.mul_succ_div_gt t 86400000000 ltac:(lia)). lia.
  - intros [Hm Hb]. apply Z.mod_divide in Hm; [|lia]. destruct Hm as [k ->].
    f_equal. symmetry. apply (Z.div_unique t 86400000000 k (t - k * 86400000000)); lia.
Qed.

Lemma toStartOfDay_day_start t p :
  in_DateTime_days t -> (toStartOfDay t = p <-> day_start_of t p).
Proof. intros Ht. rewrite (toStartOfDay_unwrapped t Ht). apply day_start_of_iff. Qed.

(** C4, as stated, fails: an entrance on 2110-05-01 truncates to that day,
    yet the query for that day has no cohort row; the period computed for
    it is the day start wrapped to 32 bits, 1974-03-24 17:31:44. *)
Lemma entrance_after_2106_has_no_cohort_row :
  exists x,
    In x (evaluated_entrances query_2110 events_2110)
    /\ aggregation_target (base x) = 1
    /\ day_start_of (timestamp (base x)) (entrance_period query_2110)
    /\ period_of x = 133378304 * microseconds_per_second
    /\ cohorts query_2110 events_2110 = [].
Proof.
  eexists. split; [vm_compute; left; reflexivity|].
  split; [reflexivity|].
  split; [split; [reflexivity | split; vm_compute; congruence]|].
  split; vm_compute; reflexivity.
Qed.

(** C4, amended.  For entrances whose timestamps lie from 1970-01-01 up to,
    not including, 2106-02-08, where the 32-bit DateTime returned by
    [toStartOfDay] does not wrap, the cohort sub-select for an entrance
    period returns at most one row per (actor, period); a row for an actor
    exists exactly when the actor has an entrance whose timestamp truncated
    to the day is the period, and its [steps_completed] is the greatest
    depth among those entrances. *)
Theorem one_cohort_row_per_actor_and_day period rows :
  Forall (fun x => in_DateTime_days (timestamp (base x))) rows ->
  NoDup (cohort_key <$> entrance_cohorts period rows)
  /\ (forall c, In c (entrance_cohorts period rows) <->
        entrance_period_start c = period
        /\ (exists x, In x rows /\ aggregation_target (base x) = actor c
                      /\ day_start_of (timestamp (base x)) period
                      /\ steps x = steps_completed c)
        /\ (forall x, In x rows -> aggregation_target (base x) = actor c ->
                      day_start_of (timestamp (base x)) period ->
                      steps x <= steps_completed c))
  /\ (forall a,
        (exists x, In x rows /\ aggregation_target (base x) = a
                   /\ day_start_of (timestamp (base x)) period) <->
        (exists c, In c (entrance_cohorts period rows) /\ actor c = a)).
Proof.
  intros Hrange. rewrite List.Forall_forall in Hrange.
  assert (Hday : forall x, In x rows ->
            (period_of x = period <-> day_start_of (timestamp (base x)) period)).
  { intros x Hx. apply toStartOfDay_day_start. now apply Hrange. }
  split; [apply cohort_rows_NoDup|]. split.
  - intros c. rewrite entrance_cohorts_In. unfold is_max_of. split.
    + intros (Hp & Hin & Hmax). split; [exact Hp|]. split.
      * apply entrance_depths_In in Hin. destruct Hin as (x & Hx & Ha & Hpx & Hs).
        exists x. rewrite <- (Hday x Hx). auto.
      * intros x Hx Ha Hd. apply Hmax. apply entrance_depths_In. exists x.
        rewrite (Hday x Hx). auto.
    + intros (Hp & (x & Hx & Ha & Hd & Hs) & Hmax). split; [exact Hp|]. split.
      * apply entrance_depths_In. exists x. rewrite (Hday x Hx). auto.
      * intros s Hs'. apply entrance_depths_In in Hs'.
        destruct Hs' as (y & Hy & Ha' & Hpy & <-). apply Hmax; auto.
        now apply (Hday y Hy).
  - intros a. split.
    + intros (x & Hx & Ha & Hd). apply (Hday x Hx) in Hd.
      destruct (entrance_cohorts_cover period rows x Hx Hd) as (c & Hc & Hac & _).
      exists c. split; [exact Hc | congruence].
    + intros (c & Hc & <-). apply entrance_cohorts_In in Hc.
      destruct Hc as [_ [Hs _]]. apply entrance_depths_In in Hs.
      destruct Hs as (x & Hx & Ha & Hp & _). exists x.
      rewrite <- (Hday x Hx). auto.
Qed.

Lemma one_cohort_row_per_actor_and_day_witness :
  NoDup (cohort_key <$> entrance_cohorts may_1_2021 two_entrances)
  /\ (forall c, In c (entrance_cohorts may_1_2021 two_entrances) <->
        entrance_period_start c = may_1_2021
        /\ (exists x, In x two_entrances /\ aggregation_target (base x) = actor c
                      /\ day_start_of (timestamp (base x)) may_1_2021
                      /\ steps x = steps_completed c)
        /\ (forall x, In x two_entrances -> aggregation_target (base x) = actor c ->
                      day_start_of (timestamp (base x)) may_1_2021 ->
                      steps x <= steps_completed c))
  /\ (forall a,
        (exists x, In x two_entrances /\ aggregation_target (base x) = a
                   /\ day_start_of (timestamp (base x)) may_1_2021) <->
        (exists c, In c (entrance_cohorts may_1_2021 two_entrances) /\ actor c = a)).
Proof.
  apply (one_cohort_row_per_actor_and_day may_1_2021 two_entrances).
  repeat (first [apply List.Forall_nil | apply List.Forall_cons]);
    split; vm_compute; congruence.
Defined.

(** C5. The actor sub-select returns, without repetition, exactly the actors
    of the cohort rows of the requested entrance period whose depth satisfies
    the predicate: [steps_completed >= K] for "at least K",
    [lo <= steps_completed < hi] for a drop-off between [lo] and [hi], and
    [steps_completed >= N] for full completion of the [N] steps. *)
Theorem source_selects_cohorts_by_depth q events :
  NoDup (source q events)
  /\ (forall a, In a (source q events) <->
        exists c, In c (cohort_rows (group_max (evaluated_entrances q events)))
                  /\ entrance_period_start c = entrance_period q
                  /\ actor c = a
                  /\ match depth q with
                     | at_least k => steps_completed c >= k
                     | between lo hi => lo <= steps_completed c < hi
                     end)
  /\ depth returns_recordings = at_least 2
  /\ depth with_drop_off = between 1 3
  /\ depth with_no_to_step = at_least total_steps.
Proof.
  split; [apply source_NoDup|].
  split; [|now repeat split].
  intros a. rewrite source_In. split.
  - intros (c & Hc & Ha & Hd). exists c. unfold cohorts in Hc.
    apply entrance_cohorts_filter in Hc. destruct Hc as [Hc Hp].
    repeat split; auto. destruct (depth q); cbn in Hd; [lia | exact Hd].
  - intros (c & Hc & Hp & Ha & Hd). exists c. split.
    + unfold cohorts. apply entrance_cohorts_filter. auto.
    + split; [exact Ha|]. destruct (depth q); cbn; [lia | exact Hd].
Qed.

Lemma twins_joined :
  inner_join [twin_1; twin_2] (source returns_recordings twin_events) = [twin_1; twin_2].
Proof. vm_compute. reflexivity. Defined.

Lemma twins_descending_ids :
  query_result returns_recordings [twin_1; twin_2] twin_events [twin_2; twin_1].
Proof.
  exists [twin_2; twin_1]. split; [split|reflexivity].
  - rewrite twins_joined. apply perm_swap.
  - repeat (first [ apply SSorted_nil | apply SSorted_cons
                  | apply List.Forall_nil | apply List.Forall_cons ]).
    unfold newest_first. vm_compute. discriminate.
Defined.

Lemma twins_ascending_ids :
  query_result returns_recordings [twin_1; twin_2] twin_events [twin_1; twin_2].
Proof.
  exists [twin_1; twin_2]. split; [split|reflexivity].
  - rewrite twins_joined. reflexivity.
  - repeat (first [ apply SSorted_nil | apply SSorted_cons
                  | apply List.Forall_nil | apply List.Forall_cons ]).
    unfold newest_first. vm_compute. discriminate.
Defined.

(** C9, as stated, fails: for two selected persons of equal creation time the
    outer select admits both orders, so ties are broken by actor id neither
    ascending nor descending. *)
Lemma ties_not_broken_by_actor_id :
  (query_result returns_recordings [twin_1; twin_2] twin_events [twin_2; twin_1]
   /\ ~ ordered_with_tie_break Z.le [twin_2; twin_1])
  /\ (query_result returns_recordings [twin_1; twin_2] twin_events [twin_1; twin_2]
      /\ ~ ordered_with_tie_break Z.ge [twin_1; twin_2]).
Proof.
  split; (split; [first [exact twins_descending_ids | exact twins_ascending_ids]|]).
  - intros H. inversion H as [|? ? _ Hf]; subst. inversion Hf as [|? ? Hh _]; subst.
    cbn in Hh. lia.
  - intros H. inversion H as [|? ? _ Hf]; subst. inversion Hf as [|? ? Hh _]; subst.
    cbn in Hh. lia.
Qed.

(** C9, amended.  Every answer of the outer select lists persons joined to
    the selected actors, ordered by creation time descending (the order
    among equal creation times is left open), cut by LIMIT 101 OFFSET 0: it
    holds the first 101 rows of the ordered join, or all of them when there
    are fewer, and no row left out is newer than a row returned. *)
Theorem answer_is_newest_first_page q persons events out :
  query_result q persons events out ->
  StronglySorted newest_first out
  /\ length out = Nat.min 101 (length (inner_join persons (source q events)))
  /\ (forall p, In p out -> In p persons /\ In (id p) (source q events))
  /\ exists rest,
       out ++ rest ≡ₚ inner_join persons (source q events)
       /\ forall p p', In p out -> In p' rest -> newest_first p p'.
Proof.
  intros (ordered & [Hperm Hsorted] & ->). unfold limit_offset. rewrite drop_0.
  rewrite <- (take_drop 101 ordered) in Hsorted, Hperm.
  apply StronglySorted_app in Hsorted. destruct Hsorted as (Hcross & Htake & _).
  split; [exact Htake|].
  split.
  { rewrite <- Hperm, take_drop. apply length_take. }
  split.
  { intros p Hp. apply inner_join_In. apply list_elem_of_In. rewrite <- Hperm.
    apply list_elem_of_In. apply in_or_app. now left. }
  exists (drop 101 ordered). split; [exact Hperm|].
  intros p p' Hp Hp'. apply Hcross; now apply list_elem_of_In.
Qed.

Lemma answer_is_newest_first_page_witness :
  StronglySorted newest_first [twin_2; twin_1]
  /\ length [twin_2; twin_1]
     = Nat.min 101 (length (inner_join [twin_1; twin_2]
                              (source returns_recordings twin_events)))
  /\ (forall p, In p [twin_2; twin_1] ->
        In p [twin_1; twin_2] /\ In (id p) (source returns_recordings twin_events))
  /\ exists rest,
       [twin_2; twin_1] ++ rest
         ≡ₚ inner_join [twin_1; twin_2] (source returns_recordings twin_events)
       /\ forall p p', In p [twin_2; twin_1] -> In p' rest -> newest_first p p'.
Proof.
  apply (answer_is_newest_first_page returns_recordings [twin_1; twin_2] twin_events).
  exact twins_descending_ids.
Defined.

(** * The scenarios of the specification *)

Example scenario_actor_A :
  evaluated_entrances returns_recordings actor_A_events = [actor_A_entrance].
Proof. vm_compute. reflexivity. Qed.

Example scenario_actor_B :
  (fun x => (steps x, per_step_duration x 1))
    <$> evaluated_entrances (may_query_with (at_least 2)) actor_B_events
  = [(1, None)].
Proof. vm_compute. reflexivity. Qed.

Example scenario_at_least_2 :
  source (may_query_with (at_least 2)) actors_A_B_events = [1].
Proof. vm_compute. reflexivity. Qed.

Example scenario_drop_off :
  source (may_query_with (between 1 3)) actors_A_B_events = [2].
Proof. vm_compute. reflexivity. Qed.

Example scenario_best_depth_per_period :
  entrance_cohorts may_1_2021 two_entrances = [mkCohort 1 may_1_2021 3].
Proof. vm_compute. reflexivity. Qed.

(** * Further properties of the query *)

(** ** Innermost select *)

Lemma in_range_spec df dt e :
  in_range df dt e = true <-> df <= e_timestamp e <= dt.
Proof.
  unfold in_range. cbn. rewrite andb_true_iff, !Z.leb_le. tauto.
Qed.

Lemma in_tuple_spec e :
  in_tuple e = true <->
  e_event e = "step one" \/ e_event e = "step two" \/ e_event e = "step three".
Proof.
  unfold in_tuple. rewrite !orb_true_iff, !String.eqb_eq. tauto.
Qed.

Lemma step_rows_In df dt events r :
  In r (step_rows df dt events) <->
  exists e, In e events /\ r = classify e
            /\ df <= e_timestamp e <= dt
            /\ (e_event e = "step one" \/ e_event e = "step two"
                \/ e_event e = "step three").
Proof.
  rewrite step_rows_classify, in_map_iff. unfold fetched. split.
  - intros (e & <- & He). apply filter_In in He. destruct He as [He Hc].
    apply andb_true_iff in Hc. destruct Hc as [Hr Ht].
    exists e. rewrite <- in_range_spec, <- in_tuple_spec. auto.
  - intros (e & He & -> & Hr & Ht). exists e. split; [reflexivity|].
    apply filter_In. split; [exact He|]. apply andb_true_iff.
    rewrite in_range_spec, in_tuple_spec. auto.
Qed.

(** X1. The innermost select returns exactly the classified events whose
    timestamp lies in the closed date range and whose name is one of the
    three step names; its third condition, that some flag is set, removes
    no row. *)
Theorem step_rows_keep_in_range_step_events df dt events :
  step_rows df dt events
  = classify <$> List.filter (fun e => in_range df dt e && in_tuple e) events
  /\ forall r, In r (step_rows df dt events) <->
       exists e, In e events /\ r = classify e
                 /\ df <= e_timestamp e <= dt
                 /\ (e_event e = "step one" \/ e_event e = "step two"
                     \/ e_event e = "step three").
Proof.
  split; [apply step_rows_classify | apply step_rows_In].
Qed.

(** X2. Every row of the innermost select has exactly one of the three step
    flags set, and carries its own timestamp in the matching [latest]
    column and NULL in the other two. *)
Theorem one_step_flag_per_row df dt events r :
  In r (step_rows df dt events) ->
  step_0 r + step_1 r + step_2 r = 1
  /\ latest_0 r = (if step_0 r =? 1 then Some (timestamp r) else None)
  /\ latest_1 r = (if step_1 r =? 1 then Some (timestamp r) else None)
  /\ latest_2 r = (if step_2 r =? 1 then Some (timestamp r) else None).
Proof.
  intros Hr. apply step_rows_In in Hr.
  destruct Hr as (e & _ & -> & _ & Hn).
  unfold classify, stamp_if, step_flag. cbn.
  destruct Hn as [-> | [-> | ->]]; cbn; auto.
Qed.

Lemma one_step_flag_per_row_witness :
  let r := classify (mkEvent (may_1_2021 + toIntervalDay 1) 1 "step two") in
  step_0 r + step_1 r + step_2 r = 1
  /\ latest_0 r = (if step_0 r =? 1 then Some (timestamp r) else None)
  /\ latest_1 r = (if step_1 r =? 1 then Some (timestamp r) else None)
  /\ latest_2 r = (if step_2 r =? 1 then Some (timestamp r) else None).
Proof.
  apply (one_step_flag_per_row may_1_2021 may_7_2021_end actor_A_events).
  vm_compute. right. left. reflexivity.
Defined.

(** ** Window sub-selects *)

Lemma filter_filter_implied {A} (p q : A -> bool) l :
  (forall z, p z = true -> q z = true) ->
  List.filter p (List.filter q l) = List.filter p l.
Proof.
  intros Hpq. induction l as [|z l IH]; [reflexivity|].
  cbn [List.filter]. destruct (q z) eqn:Eq.
  - cbn [List.filter]. now rewrite IH.
  - destruct (p z) eqn:Ep; [|exact IH]. rewrite (Hpq z Ep) in Eq. discriminate.
Qed.

Lemma over_frames_of_actor f a l :
  (forall r fr, aggregation_target (f r fr) = aggregation_target r) ->
  List.filter (of_actor a) (over_frames f l)
  = over_frames f (List.filter (of_actor a) l).
Proof.
  intros Hf. induction l as [|y l IH]; [reflexivity|].
  cbn [over_frames List.filter].
  assert (Hof : of_actor a (f y (frame y l)) = of_actor a y).
  { unfold of_actor. now rewrite Hf. }
  rewrite Hof. destruct (of_actor a y) eqn:E; [|exact IH].
  cbn [over_frames]. rewrite IH. f_equal. f_equal. unfold frame. f_equal.
  symmetry. apply filter_filter_implied. intros z Hz.
  unfold of_actor in *. unfold same_target in Hz. lia.
Qed.

Lemma fmap_filter_of_actor (g : Row -> Row) a l :
  (forall r, aggregation_target (g r) = aggregation_target r) ->
  List.filter (of_actor a) (g <$> l) = g <$> List.filter (of_actor a) l.
Proof.
  intros Hg. induction l as [|y l IH]; [reflexivity|].
  rewrite fmap_cons. cbn [List.filter].
  assert (Hof : of_actor a (g y) = of_actor a y).
  { unfold of_actor. now rewrite Hg. }
  rewrite Hof. destruct (of_actor a y); [now rewrite fmap_cons, IH | exact IH].
Qed.

(** X3. Actors are resolved independently: restricting the output of the
    window sub-selects to one aggregation target gives what they return on
    that target's rows alone. *)
Theorem resolve_per_actor a rows :
  List.filter (of_actor a) (resolve rows) = resolve (List.filter (of_actor a) rows).
Proof.
  unfold resolve, running_min_2, running_min_1_2.
  rewrite over_frames_of_actor by reflexivity.
  rewrite fmap_filter_of_actor by reflexivity.
  now rewrite over_frames_of_actor by reflexivity.
Qed.

Lemma resolve_drop pre rows :
  drop (length pre) (resolve (pre ++ rows)) = resolve rows.
Proof.
  induction pre as [|x pre IH]; [reflexivity|].
  cbn [app length]. rewrite resolve_cons. exact IH.
Qed.

(** X4. The window sub-selects never look back in time: when every row of
    [pre] has a timestamp strictly before every row of [rows], the rows
    returned for [rows] are the same with or without [pre] in the table. *)
Theorem window_resolve_ignores_earlier_rows pre rows :
  (forall x y, In x pre -> In y rows -> timestamp x < timestamp y) ->
  drop (length pre) (window_resolve (pre ++ rows)) = window_resolve rows.
Proof.
  intros Hlt. unfold window_resolve, window_rows.
  rewrite (order_by_desc_app timestamp pre rows Hlt), rev_app_distr.
  replace (length pre) with (length (List.rev (order_by_desc timestamp pre))).
  - apply resolve_drop.
  - rewrite length_rev. apply Permutation_length, order_by_desc_Permutation.
Qed.

Lemma window_resolve_ignores_earlier_rows_witness :
  drop (length [classify (mkEvent may_1_2021 1 "step one")])
    (window_resolve ([classify (mkEvent may_1_2021 1 "step one")]
                     ++ [classify (mkEvent (may_1_2021 + 1) 1 "step two")]))
  = window_resolve [classify (mkEvent (may_1_2021 + 1) 1 "step two")].
Proof.
  apply (window_resolve_ignores_earlier_rows
           [classify (mkEvent may_1_2021 1 "step one")]
           [classify (mkEvent (may_1_2021 + 1) 1 "step two")]).
  intros x y [<-|[]] [<-|[]]. vm_compute. reflexivity.
Defined.


(** X6. For a sequence sorted ascending by timestamp, a resolved [latest_1]
    or [latest_2] of any row, entrance or not, is the timestamp of an event
    of the same person carrying that step, and is not before the row's own
    timestamp. *)
Theorem resolved_stamps_come_from_later_events q events r :
  sorted_per_actor events ->
  In r (resolved_rows q events) ->
  (forall t, latest_1 r = Some t ->
     timestamp r <= t /\ occurs 1 (aggregation_target r) events t)
  /\ (forall t, latest_2 r = Some t ->
     timestamp r <= t /\ occurs 2 (aggregation_target r) events t).
Proof.
  intros Hs Hr. apply resolved_rows_In in Hr.
  destruct Hr as (before & e & after & Hsplit & ->).
  pose proof (sorted_suffix _ _ _ _ _ _ Hsplit) as Hsuf.
  assert (Hsub : forall i t, occurs i (e_person_id e) (e :: after) t ->
                             occurs i (e_person_id e) events t).
  { intros i t (e' & He' & Hrest). exists e'. split; [|exact Hrest].
    assert (Hin : In e' (fetched (date_from q) (date_to q) events)).
    { apply windowed_In. rewrite Hsplit. apply in_or_app. now right. }
    apply filter_In in Hin. tauto. }
  split; intros t Ht.
  - pose proof (resolved_latest_1 e after) as H1. rewrite Ht in H1.
    destruct H1 as [Hocc _]. split; [|now apply Hsub].
    now apply (occurs_later e after Hsuf 1).
  - pose proof (resolved_latest_2 e after Hsuf) as H2. rewrite Ht in H2.
    destruct H2 as [[Hocc _] _]. split; [|now apply Hsub].
    now apply (occurs_later e after Hsuf 2).
Qed.

Lemma resolved_stamps_come_from_later_events_witness :
  let r := base actor_A_entrance in
  (forall t, latest_1 r = Some t ->
     timestamp r <= t /\ occurs 1 (aggregation_target r) actor_A_events t)
  /\ (forall t, latest_2 r = Some t ->
     timestamp r <= t /\ occurs 2 (aggregation_target r) actor_A_events t).
Proof.
  apply (resolved_stamps_come_from_later_events returns_recordings actor_A_events).
  - exact actor_A_sorted.
  - vm_compute. left. reflexivity.
Defined.

Lemma min2_twice a b : min2 (min2 a b) b = min2 a b.
Proof. destruct a as [x|], b as [y|]; cbn; try reflexivity; f_equal; lia. Qed.

Lemma filter_all {A} (p : A -> bool) l :
  Forall (fun z => p z = true) l -> List.filter p l = l.
Proof.
  induction 1 as [|z l Hz _ IH]; [reflexivity|].
  cbn [List.filter]. now rewrite Hz, IH.
Qed.

Lemma running_min_2_least a l :
  one_target a l ->
  min_agg (latest_2 <$> running_min_2 l) = min_agg (latest_2 <$> l).
Proof.
  induction 1 as [|y l Hy Hl IH]; [reflexivity|].
  unfold running_min_2 in *. cbn [over_frames]. rewrite !fmap_cons, !min_agg_cons, IH.
  cbn [set_latest_2 latest_2]. unfold frame. rewrite filter_all.
  - rewrite fmap_cons, min_agg_cons. apply min2_twice.
  - eapply Forall_impl; [exact Hl|]. intros z Hz. unfold same_target.
    cbv beta in Hz. apply Z.eqb_eq. congruence.
Qed.

(** X7. Taking the running minimum of [latest_2] a second time changes
    nothing: the last window sub-select is idempotent. *)
Theorem running_min_2_idempotent rows :
  running_min_2 (running_min_2 rows) = running_min_2 rows.
Proof.
  induction rows as [|r l IH]; [reflexivity|].
  unfold running_min_2 in *. cbn [over_frames]. rewrite IH. f_equal.
  set (m := min_agg (latest_2 <$> frame r l)).
  assert (Hm : min_agg (latest_2 <$> frame (set_latest_2 r m)
      (over_frames (fun r fr => set_latest_2 r (min_agg (latest_2 <$> fr))) l)) = m).
  { unfold frame at 1. rewrite fmap_cons, min_agg_cons.
    change (List.filter (same_target (set_latest_2 r m)))
      with (List.filter (of_actor (aggregation_target r))).
    rewrite over_frames_of_actor by reflexivity.
    pose proof (running_min_2_least (aggregation_target r)
      (List.filter (of_actor (aggregation_target r)) l)) as Hl.
    unfold running_min_2 in Hl. rewrite Hl.
    - subst m. unfold frame. rewrite fmap_cons, min_agg_cons.
      change (List.filter (same_target r))
        with (List.filter (of_actor (aggregation_target r))).
      cbn [latest_2 set_latest_2]. apply min2_twice.
    - apply List.Forall_forall. intros z Hz. apply filter_In in Hz.
      destruct Hz as [_ Hz]. unfold of_actor in Hz. lia. }
  rewrite Hm. reflexivity.
Qed.

(** ** Depth sub-select *)

Lemma steps_of_ge_2 W r :
  2 <= steps_of W r ->
  exists a b, latest_0 r = Some a /\ latest_1 r = Some b /\ a <= b /\ b <= a + W.
Proof.
  unfold steps_of.
  destruct (latest_0 r) as [a|], (latest_1 r) as [b|]; cbn; try lia.
  destruct (Z.leb_spec a b), (Z.leb_spec b (a + W)); cbn; try lia.
  intros _. now exists a, b.
Qed.

Lemma steps_of_eq_3 W r :
  steps_of W r = 3 ->
  exists b c, latest_1 r = Some b /\ latest_2 r = Some c /\ b <= c /\ c <= b + W.
Proof.
  intros H3. destruct (steps_of_ge_2 W r ltac:(lia)) as (a & b & H0 & H1 & Hab & Hb).
  revert H3. unfold steps_of. rewrite H0, H1.
  destruct (latest_2 r) as [c|]; cbn.
  - destruct (Z.leb_spec a b), (Z.leb_spec b (a + W)), (Z.leb_spec b c),
      (Z.leb_spec c (a + W)); cbn; try discriminate.
    intros _. exists b, c. repeat split; auto; lia.
  - destruct (Z.leb_spec a b), (Z.leb_spec b (a + W)); cbn; discriminate.
Qed.

Lemma dateDiff_second_nonneg a b :
  a <= b -> 0 <= b / microseconds_per_second - a / microseconds_per_second.
Proof.
  intros Hab. unfold microseconds_per_second.
  pose proof (Z.div_le_mono a b 1000000 ltac:(lia) Hab). lia.
Qed.

(** X8. A step that counts towards the depth has its duration populated,
    with a non-negative value: depth at least 2 gives a step-1 duration and
    depth 3 gives a step-2 duration as well. *)
Theorem counted_steps_have_durations W r :
  (2 <= steps_of W r ->
     exists d, 0 <= d /\ step_1_conversion_time_of W r = Some d)
  /\ (steps_of W r = 3 ->
     exists d, 0 <= d /\ step_2_conversion_time_of W r = Some d).
Proof.
  split.
  - intros H2. destruct (steps_of_ge_2 W r H2) as (a & b & H0 & H1 & Hab & Hb).
    exists (b / microseconds_per_second - a / microseconds_per_second).
    split; [now apply dateDiff_second_nonneg|].
    apply conversion_time_1. exists a, b. auto.
  - intros H3. destruct (steps_of_eq_3 W r H3) as (b & c & H1 & H2 & Hbc & Hc).
    exists (c / microseconds_per_second - b / microseconds_per_second).
    split; [now apply dateDiff_second_nonneg|].
    apply conversion_time_2. exists b, c. auto.
Qed.

Lemma dateDiff_second_within a b n :
  b <= a + toIntervalDay n ->
  b / microseconds_per_second - a / microseconds_per_second <= 86400 * n.
Proof.
  unfold toIntervalDay, microseconds_per_day, microseconds_per_second. intros Hb.
  pose proof (Z.div_le_mono b (a + 86400 * n * 1000000) 1000000 ltac:(lia) ltac:(lia)) as H.
  rewrite Z.div_add in H by lia. lia.
Qed.

(** X9. For a sequence sorted ascending by timestamp and a window of [n]
    days, every populated per-step duration of an entrance lies between 0
    and [86400 * n] seconds. *)
Theorem per_step_duration_within_window q events x n i d :
  sorted_per_actor events ->
  window q = toIntervalDay n ->
  In x (evaluated_entrances q events) ->
  per_step_duration x i = Some d ->
  0 <= d <= 86400 * n.
Proof.
  intros Hs HW Hx. apply entrance_In in Hx.
  destruct Hx as (before & e & after & Hsplit & He & ->).
  pose proof (sorted_suffix _ _ _ _ _ _ Hsplit) as Hsuf.
  destruct (resolved_chain e after Hsuf) as [H01 H12].
  set (r := resolved_row (classify e) (classify <$> after)) in *.
  unfold per_step_duration, evaluate_row.
  cbn [step_1_conversion_time step_2_conversion_time]. rewrite HW.
  destruct (i =? 1).
  - intros Hd. apply conversion_time_1 in Hd.
    destruct Hd as (a & b & Ha & Hb & Hw & [= <-]).
    split; [apply dateDiff_second_nonneg; eauto | now apply dateDiff_second_within].
  - destruct (i =? 2); [|discriminate].
    intros Hd. apply conversion_time_2 in Hd.
    destruct Hd as (a & b & Ha & Hb & Hw & [= <-]).
    split; [apply dateDiff_second_nonneg; eauto | now apply dateDiff_second_within].
Qed.

Lemma per_step_duration_within_window_witness :
  0 <= 86400 <= 86400 * 14.
Proof.
  apply (per_step_duration_within_window returns_recordings actor_A_events
           actor_A_entrance 14 2 86400).
  - exact actor_A_sorted.
  - reflexivity.
  - rewrite actor_A_evaluated. left. reflexivity.
  - reflexivity.
Defined.

(** ** Cohort and actor sub-selects *)

Lemma cohorts_from_entrance q events c :
  In c (cohorts q events) ->
  exists x, In x (evaluated_entrances q events)
            /\ aggregation_target (base x) = actor c
            /\ period_of x = entrance_period q
            /\ steps x = steps_completed c.
Proof.
  unfold cohorts. rewrite entrance_cohorts_In. intros [_ [Hs _]].
  apply entrance_depths_In in Hs. destruct Hs as (x & Hx & Ha & Hp & Hd).
  now exists x.
Qed.

Lemma evaluated_steps_range q events x :
  In x (evaluated_entrances q events) -> 1 <= steps x <= 3.
Proof.
  unfold evaluated_entrances. intros Hx. apply evaluate_In in Hx.
  destruct Hx as (r & _ & _ & ->). apply steps_of_range.
Qed.

Lemma cohort_steps_range q events c :
  In c (cohorts q events) -> 1 <= steps_completed c <= 3.
Proof.
  intros Hc. apply cohorts_from_entrance in Hc.
  destruct Hc as (x & Hx & _ & _ & <-). now apply (evaluated_steps_range q events).
Qed.

(** X10. Every cohort row has a depth between 1 and 3, whatever the order
    of the events. *)
Theorem cohort_depth_between_1_and_3 q events c :
  In c (cohorts q events) -> 1 <= steps_completed c <= 3.
Proof. apply cohort_steps_range. Qed.

Lemma cohort_depth_between_1_and_3_witness : 1 <= 3 <= 3.
Proof.
  apply (cohort_depth_between_1_and_3 returns_recordings actor_A_events
           (mkCohort 1 may_1_2021 3)).
  vm_compute. left. reflexivity.
Defined.

Lemma entrance_event q events x :
  In x (evaluated_entrances q events) ->
  exists e, In e events /\ e_person_id e = aggregation_target (base x)
            /\ e_event e = "step one"
            /\ date_from q <= e_timestamp e <= date_to q
            /\ toStartOfDay (e_timestamp e) = period_of x.
Proof.
  intros Hx. apply entrance_In in Hx.
  destruct Hx as (before & e & after & Hsplit & He & ->).
  assert (Hin : In e (fetched (date_from q) (date_to q) events)).
  { apply windowed_In. rewrite Hsplit. apply in_or_app. right. now left. }
  apply filter_In in Hin. destruct Hin as [Hin Hc].
  apply andb_true_iff in Hc. destruct Hc as [Hr _]. apply in_range_spec in Hr.
  exists e. now repeat split.
Qed.

(** X11. Every actor the actor sub-select returns has a "step one" event
    inside the date range whose [toStartOfDay] is the requested entrance
    period; when that event lies from 1970-01-01 up to, not including,
    2106-02-08, the requested period is the start of the event's day. *)
Theorem selected_actor_entered_on_day q events a :
  In a (source q events) ->
  exists e, In e events /\ e_person_id e = a /\ entrance_in_period q e
            /\ (in_DateTime_days (e_timestamp e) ->
                day_start_of (e_timestamp e) (entrance_period q)).
Proof.
  intros Ha. apply source_In in Ha. destruct Ha as (c & Hc & <- & _).
  apply cohorts_from_entrance in Hc. destruct Hc as (x & Hx & Ht & Hp & _).
  apply entrance_event in Hx. destruct Hx as (e & He & Hw & Hn & Hr & Hd).
  assert (Hday : toStartOfDay (e_timestamp e) = entrance_period q) by congruence.
  exists e. split; [exact He|]. split; [congruence|]. split.
  - unfold entrance_in_period. auto.
  - intros Hin. now apply toStartOfDay_day_start.
Qed.

Lemma selected_actor_entered_on_day_witness :
  exists e, In e actor_A_events /\ e_person_id e = 1
            /\ entrance_in_period returns_recordings e
            /\ (in_DateTime_days (e_timestamp e) ->
                day_start_of (e_timestamp e) (entrance_period returns_recordings)).
Proof.
  apply (selected_actor_entered_on_day returns_recordings actor_A_events 1).
  vm_compute. left. reflexivity.
Defined.

Lemma entrance_is_evaluated q events e :
  In e events -> entrance_in_period q e ->
  exists x, In x (evaluated_entrances q events)
            /\ aggregation_target (base x) = e_person_id e
            /\ period_of x = entrance_period q.
Proof.
  intros He (Hn & Hr & Hp).
  assert (Hin : In e (fetched (date_from q) (date_to q) events)).
  { apply filter_In. split; [exact He|]. apply andb_true_iff.
    rewrite in_range_spec, in_tuple_spec. auto. }
  apply windowed_In in Hin.
  apply in_split in Hin. destruct Hin as (before & after & Hsplit).
  exists (evaluate_row (window q) (resolved_row (classify e) (classify <$> after))).
  split; [|split; [reflexivity | exact Hp]].
  unfold evaluated_entrances. apply evaluate_In.
  exists (resolved_row (classify e) (classify <$> after)).
  split; [|split; [|reflexivity]].
  - apply list_elem_of_In. eapply list_elem_of_lookup_2.
    apply (resolved_rows_lookup q events before e after Hsplit).
  - cbn [resolved_row step_0]. rewrite step_0_classify, Hn. reflexivity.
Qed.

(** X12. With a predicate "at least k" for [k <= 1], every actor with a
    "step one" event in the date range on the requested day is returned,
    for events from 1970-01-01 up to, not including, 2106-02-08. *)
Theorem every_day_entrant_reaches_depth_1 q events k e :
  depth q = at_least k -> k <= 1 ->
  In e events -> entered_on_day q e ->
  In (e_person_id e) (source q events).
Proof.
  intros Hd Hk He (Hn & Hr & Hin & Hday).
  assert (Hent : entrance_in_period q e).
  { unfold entrance_in_period. split; [exact Hn|]. split; [exact Hr|].
    now apply toStartOfDay_day_start. }
  destruct (entrance_is_evaluated q events e He Hent) as (x & Hx & Ha & Hp).
  destruct (entrance_cohorts_cover (entrance_period q) _ x Hx Hp) as (c & Hc & Hac & Hle).
  apply source_In. exists c. split; [exact Hc|]. split; [congruence|].
  rewrite Hd. cbn. pose proof (evaluated_steps_range q events x Hx). lia.
Qed.

Lemma every_day_entrant_reaches_depth_1_witness :
  In 7 (source (set_depth returns_recordings (at_least 1)) skipping_events).
Proof.
  apply (every_day_entrant_reaches_depth_1 (set_depth returns_recordings (at_least 1))
           skipping_events 1 (mkEvent may_1_2021 7 "step one")).
  - reflexivity.
  - lia.
  - left. reflexivity.
  - split; [reflexivity|]. split; [split; vm_compute; congruence|].
    split; [split; vm_compute; congruence|].
    split; [reflexivity | split; vm_compute; congruence].
Defined.

Lemma source_set_depth q d events a :
  In a (source (set_depth q d) events) <->
  exists c, In c (cohorts q events) /\ actor c = a /\ depth_spec d (steps_completed c).
Proof. apply (source_In (set_depth q d) events a). Qed.

(** X13. Raising the threshold of "at least k" can only remove actors, and
    a threshold above 3 removes all of them. *)
Theorem at_least_is_antitone q events k k' :
  k <= k' ->
  (forall a, In a (source (set_depth q (at_least k')) events) ->
             In a (source (set_depth q (at_least k)) events))
  /\ (3 < k' -> source (set_depth q (at_least k')) events = []).
Proof.
  intros Hk. split.
  - intros a Ha. apply source_set_depth in Ha. apply source_set_depth.
    destruct Ha as (c & Hc & Hac & Hd). exists c. cbn in *. repeat split; auto. lia.
  - intros H3. destruct (source (set_depth q (at_least k')) events) as [|a l] eqn:E;
      [reflexivity|].
    assert (Ha : In a (source (set_depth q (at_least k')) events)).
    { rewrite E. now left. }
    apply source_set_depth in Ha. destruct Ha as (c & Hc & _ & Hd).
    apply cohort_steps_range in Hc. cbn in Hd. lia.
Qed.

Lemma at_least_is_antitone_witness :
  (forall a, In a (source (set_depth returns_recordings (at_least 3)) actor_A_events) ->
             In a (source (set_depth returns_recordings (at_least 2)) actor_A_events))
  /\ (3 < 3 -> source (set_depth returns_recordings (at_least 3)) actor_A_events = []).
Proof.
  apply (at_least_is_antitone returns_recordings actor_A_events 2 3). lia.
Defined.

Lemma no_element_nil {A} (l : list A) : (forall a, ~ In a l) -> l = [].
Proof. destruct l as [|a l]; [reflexivity|]. intros H. destruct (H a). now left. Qed.

(** X14. For [lo <= hi] the drop-off query "[lo], [hi])" and the query "at
    least [hi]" return disjoint sets of actors, and together exactly the
    actors of "at least [lo]". *)
Theorem drop_off_and_completion_split q events lo hi a :
  lo <= hi ->
  (In a (source (set_depth q (at_least lo)) events) <->
     In a (source (set_depth q (between lo hi)) events)
     \/ In a (source (set_depth q (at_least hi)) events))
  /\ ~ (In a (source (set_depth q (between lo hi)) events)
        /\ In a (source (set_depth q (at_least hi)) events)).
Proof.
  intros Hlh. rewrite !source_set_depth. split; [split|].
  - intros (c & Hc & Ha & Hd). cbn in Hd.
    destruct (Z.lt_ge_cases (steps_completed c) hi).
    + left. exists c. cbn. auto.
    + right. exists c. cbn. auto.
  - intros [(c & Hc & Ha & Hd)|(c & Hc & Ha & Hd)]; exists c; cbn in *;
      repeat split; auto; lia.
  - intros [(c & Hc & Ha & Hd) (c' & Hc' & Ha' & Hd')].
    assert (c = c'); [|subst c'; cbn in *; lia].
    pose proof (cohort_rows_NoDup
      (group_max (List.filter (in_period (entrance_period q))
                    (evaluated_entrances q events)))) as Hnd.
    assert (Hk : cohort_key c = cohort_key c').
    { unfold cohort_key. rewrite Ha, Ha'.
      now rewrite (cohorts_period q events c Hc), (cohorts_period q events c' Hc'). }
    unfold cohorts, entrance_cohorts in Hc, Hc'.
    apply cohort_rows_In in Hc, Hc'. rewrite Hk in Hc.
    destruct c, c'. cbn in *. unfold cohort_key in Hk. cbn in Hk. congruence.
Qed.

Lemma drop_off_and_completion_split_witness :
  (In 7 (source (set_depth with_drop_off (at_least 1)) skipping_events) <->
     In 7 (source (set_depth with_drop_off (between 1 3)) skipping_events)
     \/ In 7 (source (set_depth with_drop_off (at_least 3)) skipping_events))
  /\ ~ (In 7 (source (set_depth with_drop_off (between 1 3)) skipping_events)
        /\ In 7 (source (set_depth with_drop_off (at_least 3)) skipping_events)).
Proof.
  apply (drop_off_and_completion_split with_drop_off skipping_events 1 3 7). lia.
Defined.

(** X15. A drop-off query whose upper bound is not above its lower bound
    returns no actor. *)
Theorem empty_drop_off_range_selects_nobody q events lo hi :
  depth q = between lo hi -> hi <= lo -> source q events = [].
Proof.
  intros Hd Hhl. apply no_element_nil. intros a Ha.
  apply source_In in Ha. destruct Ha as (c & _ & _ & Hs).
  rewrite Hd in Hs. cbn in Hs. lia.
Qed.

Lemma empty_drop_off_range_selects_nobody_witness :
  source (set_depth with_drop_off (between 2 2)) actor_A_events = [].
Proof.
  apply (empty_drop_off_range_selects_nobody
           (set_depth with_drop_off (between 2 2)) actor_A_events 2 2).
  - reflexivity.
  - lia.
Defined.

(** X16. The actor sub-select lists its actors in strictly ascending order
    of their id. *)
Theorem source_strictly_ascending q events :
  StronglySorted Z.lt (source q events).
Proof.
  pose proof (source_NoDup q events) as Hnd.
  assert (Hs : StronglySorted Z.le (source q events)).
  { unfold source. apply StronglySorted_merge_sort; apply _. }
  induction Hs as [|a l Hl IH Ha]; [constructor|].
  apply NoDup_cons in Hnd. destruct Hnd as [Hna Hnd].
  constructor; [now apply IH|].
  apply List.Forall_forall. intros b Hb. rewrite List.Forall_forall in Ha.
  specialize (Ha b Hb). assert (a <> b); [|lia].
  intros ->. apply Hna. now apply list_elem_of_In.
Qed.

(** X17. A requested entrance period that is not a DateTime, whole seconds
    that fit 32 bits, matches no entrance; and over events from 1970-01-01
    up to, not including, 2106-02-08, neither does a period that is not the
    start of a day: the query returns no actor. *)
Theorem misaligned_period_selects_nobody q events :
  ~ is_DateTime (entrance_period q)
  \/ (Forall (fun e => in_DateTime_days (e_timestamp e)) events
      /\ entrance_period q mod microseconds_per_day <> 0) ->
  source q events = [].
Proof.
  intros Hmis. apply no_element_nil. intros a Ha.
  apply source_In in Ha. destruct Ha as (c & Hc & _ & _).
  apply cohorts_from_entrance in Hc. destruct Hc as (x & Hx & _ & Hp & _).
  destruct Hmis as [Hno | [Hrange Hmod]].
  - apply Hno. rewrite <- Hp. apply toStartOfDay_is_DateTime.
  - apply entrance_event in Hx. destruct Hx as (e & He & _ & _ & _ & Hd).
    rewrite List.Forall_forall in Hrange. specialize (Hrange e He).
    apply Hmod. rewrite Hp in Hd.
    apply (toStartOfDay_day_start _ _ Hrange) in Hd. apply Hd.
Qed.

Lemma misaligned_period_selects_nobody_witness :
  source (mkQuery may_1_2021 may_7_2021_end conversion_window
            (may_1_2021 + microseconds_per_second) (at_least 1)) actor_A_events = [].
Proof.
  apply (misaligned_period_selects_nobody
           (mkQuery may_1_2021 may_7_2021_end conversion_window
              (may_1_2021 + microseconds_per_second) (at_least 1)) actor_A_events).
  right. split.
  - repeat (first [apply List.Forall_nil | apply List.Forall_cons]);
      split; vm_compute; congruence.
  - vm_compute. discriminate.
Defined.

Lemma add_to_group_union_with (r : Evaluated) (m1 m2 : gmap (Z * Z) Z) :
  add_to_group r (union_with (fun x y => Some (Z.max x y)) m1 m2)
  = union_with (fun x y => Some (Z.max x y)) (add_to_group r m1) m2.
Proof.
  apply map_eq. intros k. unfold add_to_group.
  rewrite !lookup_union_with.
  destruct (decide (group_key r = k)) as [<-|Hne].
  - rewrite !lookup_insert_eq.
    destruct (m1 !! group_key r) as [x|], (m2 !! group_key r) as [y|]; cbn;
      try reflexivity; f_equal; lia.
  - rewrite !lookup_insert_ne by assumption. now rewrite lookup_union_with.
Qed.

(** X18. Grouping can be done in parts: the groups of a concatenation are
    the groups of the two parts merged with [max] on common keys. *)
Theorem group_max_app rows1 rows2 :
  group_max (rows1 ++ rows2)
  = union_with (fun x y => Some (Z.max x y)) (group_max rows1) (group_max rows2).
Proof.
  induction rows1 as [|r rows1 IH].
  - cbn [app]. apply map_eq. intros k. rewrite lookup_union_with.
    unfold group_max at 2. cbn [foldr]. rewrite lookup_empty.
    now destruct (group_max rows2 !! k).
  - cbn [app]. unfold group_max in *. cbn [foldr]. rewrite IH.
    apply add_to_group_union_with.
Qed.

Lemma is_max_of_ext s l l' :
  (forall x, In x l <-> In x l') -> is_max_of s l -> is_max_of s l'.
Proof.
  intros H [Hs Hle]. split; [now apply H|]. intros x Hx. apply Hle. now apply H.
Qed.

(** X19. The cohort rows do not depend on the order in which the evaluated
    entrances are read. *)
Theorem cohorts_independent_of_row_order period rows rows' :
  rows ≡ₚ rows' ->
  group_max rows = group_max rows'
  /\ entrance_cohorts period rows = entrance_cohorts period rows'.
Proof.
  intros Hp.
  assert (Hgen : forall l l' : list Evaluated,
            (forall x, In x l <-> In x l') -> group_max l = group_max l').
  { intros l l' Hll. apply map_eq. intros [a p]. apply option_eq. intros s.
    rewrite !group_max_lookup.
    assert (Hd : forall x, In x (entrance_depths a p l) <-> In x (entrance_depths a p l')).
    { intros x. rewrite !entrance_depths_In.
      split; intros (r & Hr & Hrest); exists r; (split; [now apply Hll | exact Hrest]). }
    split; apply is_max_of_ext; [exact Hd | intros x; symmetry; apply Hd]. }
  split.
  - apply Hgen. intros x. rewrite <- !list_elem_of_In. now rewrite Hp.
  - unfold entrance_cohorts. f_equal. apply Hgen. intros x.
    rewrite !filter_In, <- !list_elem_of_In. now rewrite Hp.
Qed.

Lemma cohorts_independent_of_row_order_witness :
  group_max two_entrances = group_max (List.rev two_entrances)
  /\ entrance_cohorts may_1_2021 two_entrances
     = entrance_cohorts may_1_2021 (List.rev two_entrances).
Proof.
  apply (cohorts_independent_of_row_order may_1_2021 two_entrances
           (List.rev two_entrances)).
  apply perm_swap.
Defined.

(** ** Outer select *)

Lemma filter_eqb_NoDup a (l : list Z) :
  NoDup l -> List.filter (Z.eqb a) l = [] \/ List.filter (Z.eqb a) l = [a].
Proof.
  induction 1 as [|b l Hb Hl IH]; [now left|].
  cbn [List.filter]. destruct (Z.eqb_spec a b) as [<-|Hne]; [|exact IH].
  right. f_equal. apply no_element_nil. intros c Hc.
  apply filter_In in Hc. destruct Hc as [Hc Hac]. apply Z.eqb_eq in Hac. subst c.
  apply Hb. now apply list_elem_of_In.
Qed.

(** X20. When the person rows have distinct ids, the join returns every
    person at most once. *)
Theorem inner_join_has_no_repeated_person q persons events :
  NoDup (id <$> persons) ->
  NoDup (id <$> inner_join persons (source q events)).
Proof.
  pose proof (source_NoDup q events) as Hsrc.
  generalize dependent (source q events). intros actors Hact.
  induction persons as [|p persons IH]; [constructor|].
  rewrite fmap_cons. intros Hnd. apply NoDup_cons in Hnd. destruct Hnd as [Hp Hnd].
  unfold inner_join in *. rewrite bind_cons, fmap_app.
  assert (Hfresh : id p ∉ id <$> (persons ≫= fun p0 =>
             List.map (fun _ => p0) (List.filter (Z.eqb (id p0)) actors))).
  { intros Hin. apply Hp. apply list_elem_of_fmap in Hin.
    destruct Hin as (p' & Hid & Hp'). apply list_elem_of_In in Hp'.
    apply (inner_join_In persons actors p') in Hp'. destruct Hp' as [Hp' _].
    apply list_elem_of_fmap. exists p'. split; [exact Hid|].
    now apply list_elem_of_In. }
  destruct (filter_eqb_NoDup (id p) actors Hact) as [-> | ->]; cbn [List.map app fmap].
  - now apply IH.
  - change (NoDup (id p :: (id <$> (persons ≫= fun p0 =>
             List.map (fun _ => p0) (List.filter (Z.eqb (id p0)) actors))))).
    apply NoDup_cons. split; [exact Hfresh | now apply IH].
Qed.

Lemma inner_join_has_no_repeated_person_witness :
  NoDup (id <$> inner_join [twin_1; twin_2] (source returns_recordings twin_events)).
Proof.
  apply (inner_join_has_no_repeated_person returns_recordings [twin_1; twin_2] twin_events).
  apply NoDup_cons. split; [|apply NoDup_cons; split; [|apply NoDup_nil_2]].
  - intros H. apply list_elem_of_In in H. vm_compute in H. intuition discriminate.
  - intros H. apply list_elem_of_In in H. exact H.
Defined.

#[local] Instance newest_key_antisymm : AntiSymm (=) (fun x y : Z => y <= x).
Proof. intros x y. lia. Qed.

(** X21. The answers of the outer select differ only in the order of
    persons of equal creation time: any two answers list the same creation
    times in the same order. *)
Theorem answers_agree_on_creation_times q persons events out out' :
  query_result q persons events out ->
  query_result q persons events out' ->
  created_at <$> out = created_at <$> out'.
Proof.
  intros (o & [Hp Hs] & ->) (o' & [Hp' Hs'] & ->).
  unfold limit_offset. rewrite !drop_0, !fmap_take. f_equal.
  apply (StronglySorted_unique (fun x y : Z => y <= x)).
  - eapply StronglySorted_fmap; [|exact Hs]. now intros x y.
  - eapply StronglySorted_fmap; [|exact Hs']. now intros x y.
  - now rewrite Hp, Hp'.
Qed.

Lemma answers_agree_on_creation_times_witness :
  created_at <$> [twin_2; twin_1] = created_at <$> [twin_1; twin_2].
Proof.
  apply (answers_agree_on_creation_times returns_recordings [twin_1; twin_2] twin_events).
  - exact twins_descending_ids.
  - exact twins_ascending_ids.
Defined.

(** ** Stored tables *)

Section LatestLive.

Context {R K A : Type} `{EqDecision K}.
Variables (key : R -> K) (arg : R -> A) (version is_deleted : R -> Z).

Lemma argMax_row_In (rows : list R) r :
  argMax_row version rows = Some r -> In r rows.
Proof.
  revert r. induction rows as [|x rows IH]; [discriminate|].
  intros r. cbn [argMax_row]. destruct (argMax_row version rows) as [r'|].
  - destruct (version x <? version r'); intros [= <-]; [right; now apply IH | now left].
  - intros [= <-]. now left.
Qed.

Lemma argMax_row_greatest (rows : list R) r :
  argMax_row version rows = Some r ->
  forall r', In r' rows -> version r' <= version r.
Proof.
  revert r. induction rows as [|x rows IH]; [discriminate|].
  intros r. cbn [argMax_row]. destruct (argMax_row version rows) as [r0|] eqn:E.
  - specialize (IH r0 eq_refl).
    destruct (Z.ltb_spec (version x) (version r0)); intros [= <-] r' [<-|Hr'];
      try lia; specialize (IH r' Hr'); lia.
  - intros [= <-] r' [<-|Hr']; [lia|].
    destruct rows; [destruct Hr'|]. cbn in E.
    destruct (argMax_row version rows); [destruct (_ <? _)|]; discriminate.
Qed.

Lemma argMax_row_strictly_newest (rows : list R) r :
  strictly_newest version r rows -> argMax_row version rows = Some r.
Proof.
  intros [Hin Hnew]. destruct (argMax_row version rows) as [r0|] eqn:E.
  - pose proof (argMax_row_In rows r0 E) as Hr0.
    pose proof (argMax_row_greatest rows r0 E r Hin) as Hle.
    destruct (Hnew r0 Hr0) as [->|Hlt]; [reflexivity | lia].
  - destruct rows as [|x rows]; [destruct Hin|]. cbn in E.
    destruct (argMax_row version rows); [destruct (_ <? _)|]; discriminate.
Qed.

Lemma group_of_In k rows r : In r (group_of key k rows) <-> In r rows /\ key r = k.
Proof. unfold group_of. now rewrite filter_In, bool_decide_eq_true. Qed.

Lemma latest_live_In rows k v :
  In (k, v) (latest_live key arg version is_deleted rows) <->
  exists r, argMax_row version (group_of key k rows) = Some r
            /\ is_deleted r = 0 /\ arg r = v.
Proof.
  unfold latest_live. rewrite <- list_elem_of_In, list_elem_of_bind.
  fold (group_of key k rows). split.
  - intros (k' & Hkv & _). fold (group_of key k' rows) in Hkv. unfold argMax in Hkv.
    destruct (argMax_row version (group_of key k' rows)) as [r|] eqn:E; [|inversion Hkv].
    cbn in Hkv. destruct (Z.eqb_spec (is_deleted r) 0) as [Hd|]; [|inversion Hkv].
    apply list_elem_of_In in Hkv. destruct Hkv as [[= <- <-]|[]].
    exists r. auto.
  - intros (r & E & Hd & <-). exists k. split.
    + unfold argMax. fold (group_of key k rows). rewrite E. cbn. rewrite Hd. cbn.
      apply list_elem_of_In. now left.
    + apply elem_of_remove_dups, list_elem_of_fmap. exists r.
      apply argMax_row_In, group_of_In in E. destruct E as [Hr Hk].
      split; [now symmetry | now apply list_elem_of_In].
Qed.

Lemma bind_keys_NoDup (f : K -> list (K * A)) (ks : list K) :
  NoDup ks -> (forall k kv, In kv (f k) -> f k = [kv] /\ fst kv = k) ->
  NoDup (fst <$> (ks ≫= f)).
Proof.
  intros Hnd Hf. induction Hnd as [|k ks Hk Hnd IH]; [constructor|].
  rewrite bind_cons, fmap_app.
  assert (Hfresh : k ∉ fst <$> (ks ≫= f)).
  { intros Hin. apply Hk. apply list_elem_of_fmap in Hin.
    destruct Hin as (kv & -> & Hkv). apply list_elem_of_bind in Hkv.
    destruct Hkv as (k' & Hkv & Hk'). apply list_elem_of_In in Hkv.
    destruct (Hf k' kv Hkv) as [_ ->]. exact Hk'. }
  destruct (f k) as [|kv l] eqn:E; [exact IH|].
  destruct (Hf k kv) as [E' Hfst]; [rewrite E; now left|].
  rewrite E in E'. injection E' as ->. cbn [fmap list_fmap app]. rewrite Hfst.
  apply NoDup_cons. auto.
Qed.

Lemma latest_live_NoDup rows :
  NoDup (fst <$> latest_live key arg version is_deleted rows).
Proof.
  unfold latest_live. apply bind_keys_NoDup; [apply NoDup_remove_dups|].
  intros k kv. destruct (ifNull _ _); [|intros []].
  destruct (argMax _ _ _); [|intros []]. intros [<-|[]]. auto.
Qed.

End LatestLive.

Lemma team_rows_In team (table : list person.row) r :
  In r (List.filter
          (fun r => ifNull (equals (Some (person.team_id r)) (Some team)) false) table)
  <-> In r table /\ person.team_id r = team.
Proof. rewrite filter_In. cbn. now rewrite Z.eqb_eq. Qed.

Lemma persons_In team table p :
  In p (persons team table) <->
  exists r,
    argMax_row person.version
      (group_of person.id (id p)
         (List.filter
            (fun r => ifNull (equals (Some (person.team_id r)) (Some team)) false)
            table)) = Some r
    /\ person.is_deleted r = 0 /\ person.created_at r = created_at p.
Proof.
  unfold persons. rewrite in_map_iff. split.
  - intros ([k v] & <- & Hkv). now apply latest_live_In in Hkv.
  - intros Hr. exists (id p, created_at p). split; [now destruct p|].
    now apply latest_live_In.
Qed.

(** X22. The [persons] sub-select lists every person id at most once, and
    each listed person comes from an undeleted row of the team that no
    other row of that person and team exceeds in version, with that row's
    creation time. *)
Theorem persons_are_newest_undeleted_rows team table :
  NoDup (id <$> persons team table)
  /\ forall p, In p (persons team table) ->
       exists r, In r table /\ person.team_id r = team /\ person.id r = id p
                 /\ person.created_at r = created_at p /\ person.is_deleted r = 0
                 /\ forall r', In r' table -> person.team_id r' = team ->
                      person.id r' = id p -> person.version r' <= person.version r.
Proof.
  split.
  - unfold persons. rewrite <- list_fmap_compose.
    rewrite (list_fmap_ext _ fst); [apply latest_live_NoDup | now intros _ [k v] _].
  - intros p Hp. apply persons_In in Hp. destruct Hp as (r & E & Hd & Hc).
    pose proof (argMax_row_In _ _ _ E) as Hr.
    apply group_of_In in Hr. destruct Hr as [Hr Hid].
    apply team_rows_In in Hr. destruct Hr as [Hr Ht].
    exists r. repeat split; auto.
    intros r' Hr' Ht' Hid'. apply (argMax_row_greatest _ _ _ E).
    apply group_of_In. split; [|exact Hid']. apply team_rows_In. auto.
Qed.

(** X23. A person whose newest row for the team is not marked deleted is
    listed by the [persons] sub-select with that row's creation time. *)
Theorem newest_undeleted_person_is_listed team table r :
  In r table -> person.team_id r = team -> person.is_deleted r = 0 ->
  (forall r', In r' table -> person.team_id r' = team ->
     person.id r' = person.id r -> r' = r \/ person.version r' < person.version r) ->
  In (mkPerson (person.id r) (person.created_at r)) (persons team table).
Proof.
  intros Hr Ht Hd Hnew. apply persons_In. exists r. cbn [id created_at].
  split; [|auto]. apply argMax_row_strictly_newest. split.
  - apply group_of_In. split; [|reflexivity]. apply team_rows_In. auto.
  - intros r' Hr'. apply group_of_In in Hr'. destruct Hr' as [Hr' Hid].
    apply team_rows_In in Hr'. destruct Hr' as [Hr' Ht']. now apply Hnew.
Qed.

Lemma newest_undeleted_person_is_listed_witness :
  In (mkPerson 2 1600000000000000) (persons 2 person_rows).
Proof.
  apply (newest_undeleted_person_is_listed 2 person_rows
           (person.mk 2 2 1600000000000000 0 0)).
  - vm_compute. right. right. left. reflexivity.
  - reflexivity.
  - reflexivity.
  - intros r' Hr' Ht Hid. vm_compute in Hr'.
    destruct Hr' as [<-|[<-|[<-|[<-|[]]]]]; vm_compute in Hid; try discriminate.
    now left.
Defined.

Lemma answer_In q persons_rows events out p :
  query_result q persons_rows events out -> In p out ->
  In p persons_rows /\ In (id p) (source q events).
Proof.
  intros (ordered & [Hperm _] & ->) Hp. unfold limit_offset in Hp.
  rewrite drop_0 in Hp. apply inner_join_In. apply list_elem_of_In.
  rewrite <- Hperm. apply list_elem_of_In.
  rewrite <- (take_drop 101 ordered). apply in_or_app. now left.
Qed.

(** X24. A person whose newest row for the team is marked deleted appears in
    no answer of the query. *)
Theorem deleted_person_is_never_answered q team person_table pdi events_table r out p :
  In r person_table -> person.team_id r = team -> person.is_deleted r <> 0 ->
  (forall r', In r' person_table -> person.team_id r' = team ->
     person.id r' = person.id r -> r' = r \/ person.version r' < person.version r) ->
  funnel_trend_persons q team person_table pdi events_table out ->
  In p out -> id p <> person.id r.
Proof.
  intros Hr Ht Hd Hnew Hq Hp Hid.
  apply (answer_In _ _ _ _ _ Hq) in Hp. destruct Hp as [Hp _].
  apply persons_In in Hp. destruct Hp as (r0 & E & Hd0 & _).
  assert (E' : argMax_row person.version
    (group_of person.id (id p)
       (List.filter
          (fun r => ifNull (equals (Some (person.team_id r)) (Some team)) false)
          person_table)) = Some r).
  { apply argMax_row_strictly_newest. split.
    - apply group_of_In. split; [|now symmetry]. apply team_rows_In. auto.
    - intros r' Hr'. apply group_of_In in Hr'. destruct Hr' as [Hr' Hid'].
      apply team_rows_In in Hr'. destruct Hr' as [Hr' Ht']. apply Hnew; congruence. }
  congruence.
Qed.

Lemma stored_answer :
  funnel_trend_persons returns_recordings 2 person_rows pdi_rows event_rows
    [mkPerson 2 1600000000000000].
Proof.
  exists [mkPerson 2 1600000000000000]. split; [split|reflexivity].
  - vm_compute. reflexivity.
  - repeat (first [ apply SSorted_nil | apply SSorted_cons
                  | apply List.Forall_nil | apply List.Forall_cons ]).
Defined.

Lemma deleted_person_is_never_answered_witness :
  id (mkPerson 2 1600000000000000) <> person.id (person.mk 1 2 1600000000000000 1 1).
Proof.
  apply (deleted_person_is_never_answered returns_recordings 2 person_rows pdi_rows
           event_rows (person.mk 1 2 1600000000000000 1 1)
           [mkPerson 2 1600000000000000] (mkPerson 2 1600000000000000)).
  - vm_compute. right. left. reflexivity.
  - reflexivity.
  - vm_compute. discriminate.
  - intros r' Hr' Ht Hid. vm_compute in Hr'.
    destruct Hr' as [<-|[<-|[<-|[<-|[]]]]]; vm_compute in Hid; try discriminate.
    + right. vm_compute. reflexivity.
    + now left.
  - exact stored_answer.
  - left. reflexivity.
Defined.

Lemma pdi_team_rows_In team (table : list person_distinct_id2.row) r :
  In r (List.filter
          (fun r => ifNull (equals (Some (person_distinct_id2.team_id r)) (Some team)) false)
          table)
  <-> In r table /\ person_distinct_id2.team_id r = team.
Proof. rewrite filter_In. cbn. now rewrite Z.eqb_eq. Qed.

Lemma joined_events_In team pdi table ev :
  In ev (joined_events team pdi table) <->
  exists e o, In e table /\ events.team_id e = team
              /\ In o (e__pdi team pdi) /\ fst o = events.distinct_id e
              /\ ev = mkEvent (events.timestamp e) (snd o) (events.event e).
Proof.
  unfold joined_events. rewrite <- list_elem_of_In, list_elem_of_bind. split.
  - intros (e & Hev & He). apply list_elem_of_In in Hev, He.
    apply filter_In in He. destruct He as [He Ht]. cbn in Ht. apply Z.eqb_eq in Ht.
    apply in_map_iff in Hev. destruct Hev as (o & <- & Ho).
    apply filter_In in Ho. destruct Ho as [Ho Hd]. apply String.eqb_eq in Hd.
    exists e, o. auto.
  - intros (e & o & He & Ht & Ho & Hd & ->). exists e.
    split; apply list_elem_of_In.
    + apply in_map_iff. exists o. split; [reflexivity|]. apply filter_In.
      split; [exact Ho|]. apply String.eqb_eq. now symmetry.
    + apply filter_In. split; [exact He|]. cbn. now apply Z.eqb_eq.
Qed.

(** X25. Every event the funnel reads stems from a stored event of the team
    and carries the person of an undeleted mapping row of the event's
    distinct id that no other mapping row of that distinct id and team
    exceeds in version; events of a distinct id without such a row are
    dropped. *)
Theorem joined_events_use_newest_undeleted_mapping team pdi table ev :
  In ev (joined_events team pdi table) <->
  exists e m,
    In e table /\ events.team_id e = team
    /\ e_timestamp ev = events.timestamp e /\ e_event ev = events.event e
    /\ argMax_row person_distinct_id2.version
         (group_of person_distinct_id2.distinct_id (events.distinct_id e)
            (List.filter
               (fun r => ifNull (equals (Some (person_distinct_id2.team_id r))
                                        (Some team)) false) pdi)) = Some m
    /\ person_distinct_id2.is_deleted m = 0
    /\ e_person_id ev = person_distinct_id2.person_id m.
Proof.
  rewrite joined_events_In. split.
  - intros (e & [d who] & He & Ht & Ho & Hd & ->). cbn in Hd. subst d.
    unfold e__pdi in Ho. apply latest_live_In in Ho.
    destruct Ho as (m & E & Hdel & Hwho). exists e, m. cbn. auto 10.
  - intros (e & m & He & Ht & Hts & Hn & E & Hdel & Hwho).
    exists e, (events.distinct_id e, person_distinct_id2.person_id m).
    repeat split; auto.
    + unfold e__pdi. apply latest_live_In. exists m. auto.
    + destruct ev. cbn in *. congruence.
Qed.

Lemma List_filter_Permutation {A} (p : A -> bool) (l l' : list A) :
  l ≡ₚ l' -> List.filter p l ≡ₚ List.filter p l'.
Proof.
  induction 1 as [|x l l' _ IH|x y l|l l' l'' _ IH1 _ IH2].
  - reflexivity.
  - cbn [List.filter]. destruct (p x); [now constructor | exact IH].
  - cbn [List.filter]. destruct (p x), (p y); try reflexivity. apply perm_swap.
  - now rewrite IH1.
Qed.

Lemma NoDup_fmap_List_filter {A} (f : A -> Z) (p : A -> bool) (l : list A) :
  NoDup (f <$> l) -> NoDup (f <$> List.filter p l).
Proof.
  induction l as [|x l IH]; [auto|].
  rewrite fmap_cons. intros Hnd. apply NoDup_cons in Hnd. destruct Hnd as [Hx Hnd].
  cbn [List.filter]. destruct (p x); [|auto].
  rewrite fmap_cons. apply NoDup_cons. split; [|auto].
  intros Hin. apply Hx. apply list_elem_of_fmap in Hin.
  destruct Hin as (y & -> & Hy). apply list_elem_of_fmap. exists y.
  split; [reflexivity|]. apply list_elem_of_In. apply list_elem_of_In in Hy.
  apply filter_In in Hy. tauto.
Qed.

Lemma NoDup_fmap_eq {A} (f : A -> Z) (l : list A) x y :
  NoDup (f <$> l) -> In x l -> In y l -> f x = f y -> x = y.
Proof.
  induction l as [|z l IH]; [intros _ []|].
  rewrite fmap_cons. intros Hnd. apply NoDup_cons in Hnd. destruct Hnd as [Hz Hnd].
  assert (Hfresh : forall w, In w l -> f z <> f w).
  { intros w Hw E. apply Hz. rewrite E. apply list_elem_of_fmap. exists w.
    split; [reflexivity | now apply list_elem_of_In]. }
  intros [<-|Hx] [<-|Hy] E; auto.
  - now apply Hfresh in E.
  - symmetry in E. now apply Hfresh in E.
Qed.

Lemma order_by_desc_unique {A} (key : A -> Z) (l l' : list A) :
  l ≡ₚ l' -> NoDup (key <$> l) -> order_by_desc key l = order_by_desc key l'.
Proof.
  intros Hp Hnd.
  apply (StronglySorted_unique_strong (descending key)).
  - intros x y Hx Hy H1 H2. unfold descending in H1, H2. apply list_elem_of_In in Hx, Hy.
    apply (proj1 (order_by_desc_In key l x)) in Hx.
    apply (proj1 (order_by_desc_In key l' y)) in Hy.
    apply (NoDup_fmap_eq key l x y Hnd Hx); [|lia].
    apply list_elem_of_In. rewrite Hp. now apply list_elem_of_In.
  - apply order_by_desc_sorted.
  - apply order_by_desc_sorted.
  - now rewrite !order_by_desc_Permutation.
Qed.

(** X26. The order in which the events are read matters only for ties: two
    readings of the same events, no two of which share a timestamp, give
    the same resolved rows, the same evaluated entrances and the same
    actors. *)
Theorem reading_order_matters_only_for_ties q events events' :
  events ≡ₚ events' -> NoDup (e_timestamp <$> events) ->
  resolved_rows q events = resolved_rows q events'
  /\ evaluated_entrances q events = evaluated_entrances q events'
  /\ source q events = source q events'.
Proof.
  intros Hp Hnd.
  assert (E : resolved_rows q events = resolved_rows q events').
  { unfold resolved_rows, window_resolve, window_rows. do 2 f_equal.
    apply order_by_desc_unique.
    - unfold step_rows, fetched. apply List_filter_Permutation, fmap_Permutation.
      now apply List_filter_Permutation.
    - unfold step_rows. apply NoDup_fmap_List_filter.
      rewrite <- list_fmap_compose.
      change (timestamp ∘ classify) with e_timestamp.
      unfold fetched. now apply NoDup_fmap_List_filter. }
  split; [exact E|].
  unfold source, cohorts, evaluated_entrances. now rewrite E.
Qed.

Lemma reading_order_matters_only_for_ties_witness :
  resolved_rows returns_recordings actor_A_events
  = resolved_rows returns_recordings (List.rev actor_A_events)
  /\ evaluated_entrances returns_recordings actor_A_events
     = evaluated_entrances returns_recordings (List.rev actor_A_events)
  /\ source returns_recordings actor_A_events
     = source returns_recordings (List.rev actor_A_events).
Proof.
  apply (reading_order_matters_only_for_ties returns_recordings actor_A_events
           (List.rev actor_A_events)).
  - apply Permutation_rev.
  - repeat (apply NoDup_cons_2; [rewrite !list_elem_of_In; cbn [In]; vm_compute;
                                   intuition discriminate|]).
    apply NoDup_nil_2.
Defined.

Lemma filter_key_at_most_one (d : string) (l : list (string * Z)) :
  NoDup (fst <$> l) ->
  (length (List.filter (fun o => String.eqb d (fst o)) l) <= 1)%nat.
Proof.
  induction l as [|o l IH]; [cbn; lia|].
  rewrite fmap_cons. intros Hnd. apply NoDup_cons in Hnd. destruct Hnd as [Ho Hnd].
  cbn [List.filter]. destruct (String.eqb_spec d (fst o)) as [->|Hne]; [|auto].
  replace (List.filter (fun o0 => String.eqb (fst o) (fst o0)) l) with (@nil (string * Z));
    [cbn; lia|].
  symmetry. apply no_element_nil. intros o' Ho'. apply filter_In in Ho'.
  destruct Ho' as [Ho' Hd]. apply String.eqb_eq in Hd. apply Ho.
  apply list_elem_of_fmap. exists o'. split; [exact Hd | now apply list_elem_of_In].
Qed.

(** X27. The join never multiplies events: however many mapping rows a
    distinct id has, each stored event gives at most one event of the
    funnel. *)
Theorem joined_events_not_multiplied team pdi table :
  (length (joined_events team pdi table) <= length table)%nat.
Proof.
  unfold joined_events. induction table as [|e table IH]; [cbn; lia|].
  cbn [List.filter length]. destruct (ifNull _ _); [|lia].
  rewrite bind_cons, length_app, length_map.
  pose proof (filter_key_at_most_one (events.distinct_id e) (e__pdi team pdi)
                (latest_live_NoDup _ _ _ _ _)) as H1.
  lia.
Qed.

(** * Plugin server capabilities *)

Module PluginServerFacts.

Import PluginServer.

(** X28. In every mode the [http] capability is present exactly outside the
    test environment, and no capability is ever present with value
    [false]. *)
Theorem http_outside_test_env_and_nothing_disabled is_test_env mode :
  http (getPluginServerCapabilities is_test_env mode)
  = (if is_test_env then None else Some true)
  /\ Forall (fun v => v <> Some false)
       (keys (getPluginServerCapabilities is_test_env mode)).
Proof.
  destruct is_test_env, mode as [[]|]; (split; [reflexivity|]);
    repeat constructor; discriminate.
Qed.

(** X29. The mode [null] enables every capability that any other mode
    enables. *)
Theorem null_mode_includes_every_mode is_test_env mode :
  included (getPluginServerCapabilities is_test_env mode)
           (getPluginServerCapabilities is_test_env None).
Proof.
  destruct is_test_env, mode as [[]|]; repeat constructor;
    cbn; intros b; first [discriminate | exact (fun H => H)].
Qed.

(** X30. The mode "async" enables the capabilities of "exports", "jobs" and
    "scheduler" together, and "ingestion" those of "analytics-ingestion"
    and "recordings-ingestion" together. *)
Theorem composite_modes_are_unions is_test_env :
  getPluginServerCapabilities is_test_env (Some mode_async)
  = spread (getPluginServerCapabilities is_test_env (Some mode_exports))
      (spread (getPluginServerCapabilities is_test_env (Some mode_jobs))
         (getPluginServerCapabilities is_test_env (Some mode_scheduler)))
  /\ getPluginServerCapabilities is_test_env (Some mode_ingestion)
     = spread (getPluginServerCapabilities is_test_env (Some mode_analytics_ingestion))
         (getPluginServerCapabilities is_test_env (Some mode_recordings_ingestion)).
Proof. destruct is_test_env; split; reflexivity. Qed.

End PluginServerFacts.
